(** * playwright-utils: the card number engine and the CSV codec

    A shallow embedding of [src/generators/card.ts], [src/generators/random.ts],
    [src/generators/password.ts] and [src/file/csv.ts], the properties the
    specification states about them, and further properties of the same
    functions and of the ones they call.

    Conventions of the embedding.
    - A JavaScript string is the list of its code units; a code unit is an
      [ascii], so the strings covered are those whose code units are below
      256.  String literals are written [lit "..."].
    - A JavaScript number that is used as a count or an index is a [nat] or
      a [Z]; the value [NaN] of [parseInt] is [None].
    - An object used as a string-keyed map ([Record<string, T>]) is the
      association list of its own properties, in insertion order, which is
      the order [Object.keys] reports.  Property names inherited from
      [Object.prototype] and the reordering of integer-like keys are outside
      the model.
    - [Math.random] and the clock are read from an explicit [World]; a
      function that can throw returns a [result]. *)

From Stdlib Require Import String Ascii DecimalString.
From Stdlib Require DecimalZ DecimalPos.
From Stdlib Require Import Bool Arith PeanoNat ZArith Lia List Permutation.
Import ListNotations.
Local Open Scope list_scope.

(* ====================================================================== *)
(** * JavaScript strings and the library functions the sources call *)
(* ====================================================================== *)

Module JS.

Definition jstring := list ascii.

Definition lit (s : string) : jstring := list_ascii_of_string s.
Arguments lit s%_string.

Definition LF : ascii := ascii_of_nat 10.
Definition CR : ascii := ascii_of_nat 13.
Definition quote : ascii := ascii_of_nat 34.
Definition space : ascii := ascii_of_nat 32.
Definition star : ascii := ascii_of_nat 42.

Fixpoint str_eqb (a b : jstring) : bool :=
  match a, b with
  | [], [] => true
  | x :: a', y :: b' => Ascii.eqb x y && str_eqb a' b'
  | _, _ => false
  end.

(** [\d]: the ten decimal digits. *)
Definition is_digit (c : ascii) : bool :=
  (48 <=? nat_of_ascii c) && (nat_of_ascii c <=? 57).

(** White space and line terminators removed by [String.prototype.trim],
    among the code units below 256. *)
Definition is_ws (c : ascii) : bool :=
  let n := nat_of_ascii c in
  ((9 <=? n) && (n <=? 13)) || (n =? 32) || (n =? 160).

Fixpoint drop_ws (s : jstring) : jstring :=
  match s with
  | [] => []
  | c :: s' => if is_ws c then drop_ws s' else s
  end.

(** [s.trim()] *)
Definition trim (s : jstring) : jstring := rev (drop_ws (rev (drop_ws s))).

(** [s.startsWith(p)] *)
Fixpoint startsWith (s p : jstring) {struct p} : bool :=
  match p, s with
  | [], _ => true
  | _ :: _, [] => false
  | x :: p', y :: s' => Ascii.eqb x y && startsWith s' p'
  end.

(** [s.includes(needle)] *)
Fixpoint includes (s needle : jstring) : bool :=
  startsWith s needle ||
  match s with
  | [] => false
  | _ :: s' => includes s' needle
  end.

(** [parts.join(sep)] *)
Fixpoint join (sep : jstring) (parts : list jstring) : jstring :=
  match parts with
  | [] => []
  | [p] => p
  | p :: rest => p ++ sep ++ join sep rest
  end.

(** [s.split(/\r?\n/)]: a line ends at a line feed, and a carriage return
    directly before that line feed belongs to the separator. *)
Fixpoint split_lines (s : jstring) : list jstring :=
  let push c ls :=
    match ls with
    | [] => [[c]]
    | l :: ls' => (c :: l) :: ls'
    end in
  match s with
  | [] => [[]]
  | c :: rest =>
      if Ascii.eqb c LF then [] :: split_lines rest
      else if Ascii.eqb c CR then
        match rest with
        | c' :: rest' =>
            if Ascii.eqb c' LF then [] :: split_lines rest'
            else push c (split_lines rest)
        | [] => push c (split_lines rest)
        end
      else push c (split_lines rest)
  end.

(** [s.replace(/\D/g, '')] *)
Definition strip_non_digits (s : jstring) : jstring := filter is_digit s.

(** [n.toString()] and [`${n}`] for an integer [n]. *)
Definition toString (n : Z) : jstring :=
  list_ascii_of_string (NilZero.string_of_int (Z.to_int n)).

(** [parseInt(c, 10)] on a one-character string; [None] is [NaN]. *)
Definition parseInt10 (c : ascii) : option nat :=
  if is_digit c then Some (nat_of_ascii c - 48) else None.

(** [s.padStart(n, '0')] *)
Definition padStart0 (n : nat) (s : jstring) : jstring :=
  repeat (ascii_of_nat 48) (n - length s) ++ s.

(** [s.slice(start)] *)
Definition slice_from (s : jstring) (start : Z) : jstring :=
  let len := Z.of_nat (length s) in
  let from := if (start <? 0)%Z then Z.max (len + start) 0 else Z.min start len in
  skipn (Z.to_nat from) s.

Inductive exn : Type :=
  | Error (message : jstring)
  | RangeError (message : jstring).


Inductive result (A : Type) : Type :=
  | Ok (a : A)
  | Throw (e : exn).
Arguments Ok {A} a.
Arguments Throw {A} e.

(** [c.repeat(count)]: a negative count is a RangeError. *)
Definition repeat_char (c : ascii) (count : Z) : result jstring :=
  if (count <? 0)%Z
  then Throw (RangeError (lit "Invalid count value: " ++ toString count))
  else Ok (repeat c (Z.to_nat count)).

(** The random source and the clock. [Math.random()] consumes one entry of
    [rand_src]; [Math.floor(Math.random() * n)] is that entry modulo [n],
    which ranges over all of [0 .. n-1]. *)
Record World : Type := mkWorld {
  rand_src : nat -> nat;
  rand_pos : nat;
  now_year : Z
}.

Definition M (A : Type) : Type := World -> result A * World.

Definition ret {A} (a : A) : M A := fun w => (Ok a, w).

Definition bind {A B} (m : M A) (k : A -> M B) : M B :=
  fun w =>
    match m w with
    | (Ok a, w') => k a w'
    | (Throw e, w') => (Throw e, w')
    end.

Definition throw {A} (e : exn) : M A := fun w => (Throw e, w).

Definition math_random_floor (n : Z) : M Z :=
  fun w =>
    (Ok (Z.of_nat (rand_src w (rand_pos w)) mod n)%Z,
     mkWorld (rand_src w) (S (rand_pos w)) (now_year w)).

Definition getFullYear : M Z := fun w => (Ok (now_year w), w).

(** [s.split(sep)] for a separator of one character. *)
Fixpoint split_on (sep : ascii) (s : jstring) : list jstring :=
  match s with
  | [] => [[]]
  | c :: rest =>
      if Ascii.eqb c sep then [] :: split_on sep rest
      else match split_on sep rest with
           | l :: ls => (c :: l) :: ls
           | [] => [[c]]
           end
  end.

End JS.

Import JS.

Notation "x <- m ;; k" := (bind m (fun x => k))
  (at level 61, m at next level, right associativity).

(* ====================================================================== *)
(** * src/generators/random.ts *)
(* ====================================================================== *)

Module Random.

Definition randomInt (min max : Z) : M Z :=
  if (max <? min)%Z
  then throw (Error (lit "min must be less than or equal to max"))
  else r <- math_random_floor (max - min + 1) ;; ret (r + min)%Z.

(** [dflt] stands for the [undefined] that an index out of range reads; the
    index drawn is always in range. *)
Definition randomElement {T} (dflt : T) (array : list T) : M T :=
  if length array =? 0
  then throw (Error (lit "Cannot get random element from empty array"))
  else i <- randomInt 0 (Z.of_nat (length array) - 1) ;;
       ret (nth (Z.to_nat i) array dflt).

Definition CHARSETS_alpha : jstring :=
  lit "abcdefghijklmnopqrstuvwxyzABCDEFGHIJKLMNOPQRSTUVWXYZ".
Definition CHARSETS_alphaLower : jstring := lit "abcdefghijklmnopqrstuvwxyz".
Definition CHARSETS_alphaUpper : jstring := lit "ABCDEFGHIJKLMNOPQRSTUVWXYZ".
Definition CHARSETS_numeric : jstring := lit "0123456789".
Definition CHARSETS_alphanumeric : jstring :=
  lit "abcdefghijklmnopqrstuvwxyzABCDEFGHIJKLMNOPQRSTUVWXYZ0123456789".
Definition CHARSETS_hex : jstring := lit "0123456789abcdef".

(** [s.charAt(i)]: the empty string when [i] is out of range. *)
Definition charAt (s : jstring) (i : Z) : jstring :=
  if (i <? 0)%Z then []
  else match nth_error s (Z.to_nat i) with
       | Some c => [c]
       | None => []
       end.

(** The loop of [randomString], with [n] iterations left. *)
Fixpoint randomString_loop (n : nat) (chars : jstring) (result : jstring)
  : M jstring :=
  match n with
  | 0 => ret result
  | S n' =>
      i <- randomInt 0 (Z.of_nat (length chars) - 1) ;;
      randomString_loop n' chars (result ++ charAt chars i)
  end.

(** [charset || CHARSETS.alphanumeric]: an absent or empty [charset] gives
    the default. *)
Definition randomString (length_ : Z) (charset : option jstring) : M jstring :=
  if (length_ <? 0)%Z
  then throw (Error (lit "length must be non-negative"))
  else
    let chars :=
      match charset with
      | Some ((_ :: _) as c) => c
      | _ => CHARSETS_alphanumeric
      end in
    randomString_loop (Z.to_nat length_) chars [].

Definition randomAlpha (length_ : Z) : M jstring :=
  randomString length_ (Some CHARSETS_alpha).
Definition randomAlphanumeric (length_ : Z) : M jstring :=
  randomString length_ (Some CHARSETS_alphanumeric).
Definition randomHex (length_ : Z) : M jstring :=
  randomString length_ (Some CHARSETS_hex).
Definition randomLowercase (length_ : Z) : M jstring :=
  randomString length_ (Some CHARSETS_alphaLower).
Definition randomUppercase (length_ : Z) : M jstring :=
  randomString length_ (Some CHARSETS_alphaUpper).
Definition randomNumeric (length_ : Z) : M jstring :=
  randomString length_ (Some CHARSETS_numeric).

(** [array[i] = v] for an index inside the array. *)
Fixpoint set_nth {T} (l : list T) (i : nat) (v : T) : list T :=
  match l, i with
  | [], _ => []
  | _ :: l', 0 => v :: l'
  | x :: l', S i' => x :: set_nth l' i' v
  end.

(** [[result[i], result[j]] = [result[j], result[i]]]: both elements are
    read, then written to the other index. The indices [shuffle] uses are
    inside the array. *)
Definition swap {T} (result : list T) (i j : nat) : list T :=
  match nth_error result i, nth_error result j with
  | Some a, Some b => set_nth (set_nth result i b) j a
  | _, _ => result
  end.

(** The loop of [shuffle], from index [i] down to 1. *)
Fixpoint shuffle_loop {T} (i : nat) (result : list T) : M (list T) :=
  match i with
  | 0 => ret result
  | S i' =>
      j <- randomInt 0 (Z.of_nat i) ;;
      shuffle_loop i' (swap result i (Z.to_nat j))
  end.

Definition shuffle {T} (array : list T) : M (list T) :=
  shuffle_loop (length array - 1) array.

Definition randomElements {T} (array : list T) (count : Z) : M (list T) :=
  if (count <? 0)%Z
  then throw (Error (lit "count must be non-negative"))
  else if (Z.of_nat (length array) <? count)%Z
  then throw (Error (lit "count cannot be greater than array length"))
  else shuffled <- shuffle array ;; ret (firstn (Z.to_nat count) shuffled).

End Random.

Import Random.

(* ====================================================================== *)
(** * src/generators/card.ts *)
(* ====================================================================== *)

Module Card.

Definition table (T : Type) := list (jstring * T).

(** [tbl[key]]; [None] is [undefined]. *)
Fixpoint table_get {T} (tbl : table T) (key : jstring) : option T :=
  match tbl with
  | [] => None
  | (k, v) :: rest => if str_eqb k key then Some v else table_get rest key
  end.

Definition CARD_PREFIXES : table (list jstring) :=
  [ (lit "visa", [lit "4"]);
    (lit "mastercard",
       [lit "51"; lit "52"; lit "53"; lit "54"; lit "55"; lit "2221"; lit "2720"]);
    (lit "amex", [lit "34"; lit "37"]);
    (lit "discover",
       [lit "6011"; lit "644"; lit "645"; lit "646"; lit "647"; lit "648";
        lit "649"; lit "65"]) ].

Definition CARD_LENGTHS : table Z :=
  [ (lit "visa", 16%Z); (lit "mastercard", 16%Z); (lit "amex", 15%Z);
    (lit "discover", 16%Z) ].

Definition CVC_LENGTHS : table Z :=
  [ (lit "visa", 3%Z); (lit "mastercard", 3%Z); (lit "amex", 4%Z);
    (lit "discover", 3%Z) ].

Record CardOptions : Type := mkCardOptions {
  opt_type : option jstring;
  opt_valid : option bool
}.

Record CardInfo : Type := mkCardInfo {
  number : jstring;
  expiry : jstring;
  cvc : jstring;
  type : jstring
}.

(** [tbl[key] || dflt] for a table of numbers: [undefined] and [0] are
    falsy. *)
Definition number_or (v : option Z) (dflt : Z) : Z :=
  match v with
  | Some n => if (n =? 0)%Z then dflt else n
  | None => dflt
  end.

(** One iteration of the loop of [luhnCheck]; the state is [(sum, isEven)],
    and a [sum] of [None] is [NaN]. *)
Definition luhn_step (st : option nat * bool) (c : ascii) : option nat * bool :=
  let '(sum, isEven) := st in
  let digit := parseInt10 c in
  let digit :=
    if isEven
    then option_map (fun d => if 9 <? d * 2 then d * 2 - 9 else d * 2) digit
    else digit in
  (match sum, digit with
   | Some s, Some d => Some (s + d)
   | _, _ => None
   end,
   negb isEven).

(** The loop runs over the indices [length - 1] down to [0]. *)
Definition luhn_loop (digits : jstring) : option nat * bool :=
  fold_left luhn_step (rev digits) (Some 0, false).

Definition luhnCheck (digits : jstring) : bool :=
  match fst (luhn_loop digits) with
  | Some sum => sum mod 10 =? 0
  | None => false
  end.

(** The loop of [calculateLuhnCheckDigit], from [digit] while
    [digit <= 9]; [None] when the loop ends without returning. *)
Fixpoint find_check_digit (partialNumber : jstring) (digit : nat) (todo : nat)
  : option nat :=
  match todo with
  | 0 => None
  | S todo' =>
      if luhnCheck (partialNumber ++ toString (Z.of_nat digit))
      then Some digit
      else find_check_digit partialNumber (S digit) todo'
  end.

Definition calculateLuhnCheckDigit (partialNumber : jstring) : jstring :=
  match find_check_digit partialNumber 0 10 with
  | Some digit => toString (Z.of_nat digit)
  | None => lit "0"
  end.

(** The loop [for (i = 0; i < n; i++) number += randomInt(0, 9).toString()]. *)
Fixpoint append_random_digits (n : nat) (number : jstring) : M jstring :=
  match n with
  | 0 => ret number
  | S n' =>
      d <- randomInt 0 9 ;;
      append_random_digits n' (number ++ toString d)
  end.

Definition generateCardNumber (options : CardOptions) : M jstring :=
  let type := match opt_type options with Some t => t | None => lit "visa" end in
  let valid := match opt_valid options with Some v => v | None => true end in
  let prefixes :=
    match table_get CARD_PREFIXES type with
    | Some p => p
    | None =>
        match table_get CARD_PREFIXES (lit "visa") with
        | Some p => p
        | None => []
        end
    end in
  let length_ := number_or (table_get CARD_LENGTHS type) 16 in
  prefix <- randomElement [] prefixes ;;
  let remainingLength := (length_ - Z.of_nat (length prefix) - 1)%Z in
  number <- append_random_digits (Z.to_nat remainingLength) prefix ;;
  if valid
  then ret (number ++ calculateLuhnCheckDigit number)
  else d <- randomInt 0 9 ;; ret (number ++ toString d).

Definition generateExpiry (yearsAhead : Z) : M jstring :=
  year <- getFullYear ;;
  r <- randomInt 1 yearsAhead ;;
  let futureYear := (year + r)%Z in
  month <- randomInt 1 12 ;;
  let mm := padStart0 2 (toString month) in
  let yy := padStart0 2 (toString (Z.rem futureYear 100)) in
  ret (mm ++ lit "/" ++ yy).

Definition generateCVC (length_ : Z) : M jstring :=
  append_random_digits (Z.to_nat length_) [].

Definition generateCard (options : CardOptions) : M CardInfo :=
  let type :=
    match opt_type options with
    | Some ((_ :: _) as t) => t
    | _ => lit "visa"
    end in
  let cvcLength := number_or (table_get CVC_LENGTHS type) 3 in
  number <- generateCardNumber options ;;
  expiry <- generateExpiry 3 ;;
  cvc <- generateCVC cvcLength ;;
  ret (mkCardInfo number expiry cvc type).

Definition isValidCardNumber (number : jstring) : bool :=
  let digits := strip_non_digits number in
  if (length digits <? 13) || (19 <? length digits)
  then false
  else luhnCheck digits.

(** The two nested loops of [getCardType], over the entries of
    [CARD_PREFIXES] in declaration order. *)
Fixpoint first_type_with_prefix (entries : table (list jstring)) (digits : jstring)
  : option jstring :=
  match entries with
  | [] => None
  | (type, prefixes) :: rest =>
      if existsb (fun prefix => startsWith digits prefix) prefixes
      then Some type
      else first_type_with_prefix rest digits
  end.

Definition getCardType (number : jstring) : option jstring :=
  let digits := strip_non_digits number in
  first_type_with_prefix CARD_PREFIXES digits.

(** [s.replace(/(\d{4})(\d{6})(\d{5})/, '$1 $2 $3')]: the leftmost run of
    fifteen digits is regrouped. *)
Fixpoint replace_amex_groups (s : jstring) : jstring :=
  if (15 <=? length s) && forallb is_digit (firstn 15 s)
  then firstn 4 s ++ [space] ++ firstn 6 (skipn 4 s) ++ [space]
       ++ firstn 5 (skipn 10 s) ++ skipn 15 s
  else match s with
       | [] => []
       | c :: s' => c :: replace_amex_groups s'
       end.

(** [s.replace(/(\d{4})(?=\d)/g, '$1 ')]: scanning from the left, four
    digits that are followed by a digit get a space after them. *)
Fixpoint replace_groups_of_four (s : jstring) : jstring :=
  match s with
  | a :: ((b :: c :: d :: ((e :: _) as rest4)) as rest1) =>
      if is_digit a && is_digit b && is_digit c && is_digit d && is_digit e
      then a :: b :: c :: d :: space :: replace_groups_of_four rest4
      else a :: replace_groups_of_four rest1
  | a :: rest1 => a :: replace_groups_of_four rest1
  | [] => []
  end.

Definition formatCardNumber (number : jstring) (type : option jstring) : jstring :=
  let digits := strip_non_digits number in
  let cardType :=
    match type with
    | Some ((_ :: _) as t) => t
    | _ =>
        match getCardType digits with
        | Some t => t
        | None => lit "visa"
        end
    end in
  if str_eqb cardType (lit "amex")
  then replace_amex_groups digits
  else trim (replace_groups_of_four digits).

Definition maskCardNumber (number : jstring) (visibleDigits : Z) : result jstring :=
  let digits := strip_non_digits number in
  match repeat_char star (Z.of_nat (length digits) - visibleDigits) with
  | Throw e => Throw e
  | Ok masked =>
      let visible := slice_from digits (- visibleDigits) in
      Ok (formatCardNumber (masked ++ visible) None)
  end.

(** [const [month, year] = expiry.split('/')]; a part that is absent
    reads as the empty string here, and the text of [generateExpiry] always
    has both parts. *)
Definition generateExpiryComponents (yearsAhead : Z) : M (jstring * jstring) :=
  expiry <- generateExpiry yearsAhead ;;
  let parts := split_on (ascii_of_nat 47) expiry in
  ret (nth 0 parts [], nth 1 parts []).



End Card.

Import Card.

(* ====================================================================== *)
(** * src/file/csv.ts *)
(* ====================================================================== *)

Module CSV.

(** [CSVOptions]; [None] is an absent key. *)
Record CSVOptions : Type := mkCSVOptions {
  delimiter : option jstring;
  hasHeaders : option bool;
  encoding : option jstring;
  skipEmptyLines : option bool
}.

Definition no_options : CSVOptions := mkCSVOptions None None None None.

(** [{ ...DEFAULT_OPTIONS, ...options }] *)
Definition opt_delimiter (options : CSVOptions) : jstring :=
  match delimiter options with Some d => d | None => lit "," end.
Definition opt_hasHeaders (options : CSVOptions) : bool :=
  match hasHeaders options with Some b => b | None => true end.
Definition opt_skipEmptyLines (options : CSVOptions) : bool :=
  match skipEmptyLines options with Some b => b | None => true end.

(** A row object: its own properties in insertion order. *)
Definition Row := list (jstring * jstring).

(** [row[key]]; [None] is [undefined]. *)
Fixpoint row_get (row : Row) (key : jstring) : option jstring :=
  match row with
  | [] => None
  | (k, v) :: rest => if str_eqb k key then Some v else row_get rest key
  end.

(** [row[key] = value]: an existing property keeps its place, a new one
    is added last. *)
Fixpoint row_set (row : Row) (key value : jstring) : Row :=
  match row with
  | [] => [(key, value)]
  | (k, v) :: rest =>
      if str_eqb k key then (k, value) :: rest
      else (k, v) :: row_set rest key value
  end.

(** [Object.keys(row)] *)
Definition keys (row : Row) : list jstring := map fst row.

(** The loop of [parseLine] from index [i] on; [line] is what is left of
    the line from [i], so its second character is [nextChar]. *)
Fixpoint parseLine_loop (delimiter : jstring) (line : jstring) (inQuotes : bool)
    (current : jstring) (result : list jstring) : list jstring :=
  match line with
  | [] => result ++ [trim current]
  | char :: rest =>
      if inQuotes then
        if Ascii.eqb char quote then
          match rest with
          | nextChar :: rest' =>
              if Ascii.eqb nextChar quote
              then parseLine_loop delimiter rest' true (current ++ [quote]) result
              else parseLine_loop delimiter rest false current result
          | [] => parseLine_loop delimiter rest false current result
          end
        else parseLine_loop delimiter rest true (current ++ [char]) result
      else
        if Ascii.eqb char quote then
          parseLine_loop delimiter rest true current result
        else if str_eqb [char] delimiter then
          parseLine_loop delimiter rest false [] (result ++ [trim current])
        else parseLine_loop delimiter rest false (current ++ [char]) result
  end.

Definition parseLine (line : jstring) (delimiter : jstring) : list jstring :=
  parseLine_loop delimiter line false [] [].

(** [headers.forEach((header, index) => row[header] = values[index] || '')] *)
Fixpoint fill_row (headers : list jstring) (index : nat) (values : list jstring)
    (row : Row) : Row :=
  match headers with
  | [] => row
  | header :: headers' =>
      let value :=
        match nth_error values index with
        | Some ((_ :: _) as v) => v
        | _ => []
        end in
      fill_row headers' (S index) values (row_set row header value)
  end.

(** [lines.filter(line => line.trim().length > 0)] when [skipEmptyLines]. *)
Definition filteredLines (content : jstring) (options : CSVOptions) : list jstring :=
  let lines := split_lines content in
  if opt_skipEmptyLines options
  then filter (fun line => 0 <? length (trim line)) lines
  else lines.

(** The column names [parseCSV] uses. *)
Definition csv_headers (content : jstring) (options : CSVOptions) : list jstring :=
  match filteredLines content options with
  | [] => []
  | first :: _ =>
      if opt_hasHeaders options
      then parseLine first (opt_delimiter options)
      else
        let firstLine := parseLine first (opt_delimiter options) in
        map (fun i => lit "column_" ++ toString (Z.of_nat i))
            (seq 0 (length firstLine))
  end.

(** The lines from [dataStartIndex] on. *)
Definition csv_dataLines (content : jstring) (options : CSVOptions) : list jstring :=
  if opt_hasHeaders options
  then skipn 1 (filteredLines content options)
  else filteredLines content options.

Definition parseCSV (content : jstring) (options : CSVOptions) : list Row :=
  match filteredLines content options with
  | [] => []
  | _ :: _ =>
      let headers := csv_headers content options in
      map (fun line =>
             let values := parseLine line (opt_delimiter options) in
             fill_row headers 0 values [])
          (csv_dataLines content options)
  end.

(** [value.replace] with the global pattern of one quote character and
    the replacement of two: every quote character is doubled. *)
Definition double_quotes (value : jstring) : jstring :=
  flat_map (fun c => if Ascii.eqb c quote then [quote; quote] else [c]) value.

Definition escapeField (value : jstring) (delimiter : jstring) : jstring :=
  let needsQuoting :=
    includes value delimiter || includes value [quote]
    || includes value [LF] || includes value [CR] in
  if needsQuoting
  then [quote] ++ double_quotes value ++ [quote]
  else value.

(** The cells of a row are strings here; a cell that is absent
    ([undefined]) is written as the empty string. *)
Definition stringifyCSV (data : list Row) (options : CSVOptions) : jstring :=
  let d := opt_delimiter options in
  match data with
  | [] => []
  | first :: _ =>
      let headers := keys first in
      let lines :=
        if opt_hasHeaders options
        then [join d (map (fun h => escapeField h d) headers)]
        else [] in
      let lines :=
        lines ++
        map (fun row =>
               let values :=
                 map (fun header =>
                        let value := row_get row header in
                        escapeField
                          (match value with Some v => v | None => [] end) d)
                     headers in
               join d values)
            data in
      join [LF] lines
  end.

(** The file system: reading a path gives its content or throws. The
    resolution of a relative path against the working directory is part
    of it. *)
Definition FileSystem := jstring -> result jstring.

Definition readCSV (fs : FileSystem) (filePath : jstring) (options : CSVOptions)
  : result (list Row) :=
  match fs filePath with
  | Ok content => Ok (parseCSV content options)
  | Throw e => Throw e
  end.













(** [readCSVSync] reads the file and parses it as [readCSV] does. *)
Definition readCSVSync (fs : FileSystem) (filePath : jstring)
    (options : CSVOptions) : result (list Row) :=
  match fs filePath with
  | Ok content => Ok (parseCSV content options)
  | Throw e => Throw e
  end.

(** [content.split(/\r?\n/)[0]] is the first line whether or not it is
    blank; the split always has a first element. *)
Definition getCSVHeaders (fs : FileSystem) (filePath : jstring)
    (options : CSVOptions) : result (list jstring) :=
  match fs filePath with
  | Ok content =>
      let firstLine := nth 0 (split_lines content) [] in
      Ok (parseLine firstLine (opt_delimiter options))
  | Throw e => Throw e
  end.

Definition countCSVRows (fs : FileSystem) (filePath : jstring)
    (options : CSVOptions) : result Z :=
  match fs filePath with
  | Ok content =>
      let lines :=
        filter (fun line =>
                  if opt_skipEmptyLines options
                  then 0 <? length (trim line)
                  else true)
               (split_lines content) in
      Ok (if opt_hasHeaders options
          then Z.max 0 (Z.of_nat (length lines) - 1)
          else Z.of_nat (length lines))
  | Throw e => Throw e
  end.

End CSV.

Import CSV.

(* ====================================================================== *)
(** * src/generators/password.ts *)
(* ====================================================================== *)

Module Password.

Definition PW_uppercase : jstring := lit "ABCDEFGHIJKLMNOPQRSTUVWXYZ".
Definition PW_lowercase : jstring := lit "abcdefghijklmnopqrstuvwxyz".
Definition PW_numbers : jstring := lit "0123456789".
Definition PW_symbols : jstring := lit "!@#$%^&*()_+-=[]{}|;:,.<>?".

Record PasswordOptions : Type := mkPasswordOptions {
  pw_length : option Z;
  pw_uppercase : option bool;
  pw_lowercase : option bool;
  pw_numbers : option bool;
  pw_symbols : option bool;
  pw_excludeChars : option jstring;
  pw_mustInclude : option (list jstring)
}.

(** [s.split('').filter(c => !excludeChars.includes(c)).join('')] *)
Definition remove_excluded (excludeChars s : jstring) : jstring :=
  filter (fun c => negb (includes excludeChars [c])) s.

(** The [switch] over the type of a required character. *)
Definition charset_of_type (type : jstring) : jstring :=
  if str_eqb type (lit "uppercase") then PW_uppercase
  else if str_eqb type (lit "lowercase") then PW_lowercase
  else if str_eqb type (lit "number") then PW_numbers
  else if str_eqb type (lit "symbol") then PW_symbols
  else [].

(** The loop over [mustInclude]. *)
Fixpoint required_loop (mustInclude : list jstring) (excludeChars : jstring)
    (requiredChars : list jstring) : M (list jstring) :=
  match mustInclude with
  | [] => ret requiredChars
  | type :: rest =>
      let charset := remove_excluded excludeChars (charset_of_type type) in
      if 0 <? length charset
      then i <- randomInt 0 (Z.of_nat (length charset) - 1) ;;
           required_loop rest excludeChars (requiredChars ++ [charAt charset i])
      else required_loop rest excludeChars requiredChars
  end.

(** The loop [while (chars.length < length)], with [n] iterations left. *)
Fixpoint fill_loop (n : nat) (pool : jstring) (chars : list jstring)
  : M (list jstring) :=
  match n with
  | 0 => ret chars
  | S n' =>
      i <- randomInt 0 (Z.of_nat (length pool) - 1) ;;
      fill_loop n' pool (chars ++ [charAt pool i])
  end.

Definition generatePassword (options : PasswordOptions) : M jstring :=
  let length_ := match pw_length options with Some n => n | None => 12%Z end in
  let uppercase := match pw_uppercase options with Some b => b | None => true end in
  let lowercase := match pw_lowercase options with Some b => b | None => true end in
  let numbers := match pw_numbers options with Some b => b | None => true end in
  let symbols := match pw_symbols options with Some b => b | None => true end in
  let excludeChars := match pw_excludeChars options with Some e => e | None => [] end in
  let mustInclude := match pw_mustInclude options with Some m => m | None => [] end in
  if (length_ <? 1)%Z
  then throw (Error (lit "Password length must be at least 1"))
  else
    let pool := [] in
    let pool := if uppercase then pool ++ PW_uppercase else pool in
    let pool := if lowercase then pool ++ PW_lowercase else pool in
    let pool := if numbers then pool ++ PW_numbers else pool in
    let pool := if symbols then pool ++ PW_symbols else pool in
    let pool :=
      match excludeChars with
      | _ :: _ => remove_excluded excludeChars pool
      | [] => pool
      end in
    if length pool =? 0
    then throw (Error (lit "No characters available for password generation"))
    else
      requiredChars <- required_loop mustInclude excludeChars [] ;;
      let chars := [] ++ requiredChars in
      chars <- fill_loop (Z.to_nat (length_ - Z.of_nat (length chars))) pool chars ;;
      shuffled <- shuffle chars ;;
      ret (join [] shuffled).

Definition generateSecurePassword (length_ : Z) : M jstring :=
  generatePassword
    (mkPasswordOptions (Some length_) (Some true) (Some true) (Some true)
       (Some true) None
       (Some [lit "uppercase"; lit "lowercase"; lit "number"; lit "symbol"])).

Definition generatePin (length_ : Z) : M jstring :=
  if (length_ <? 1)%Z
  then throw (Error (lit "PIN length must be at least 1"))
  else append_random_digits (Z.to_nat length_) [].

Record PasswordStrength : Type := mkPasswordStrength {
  score : Z;
  level : jstring;
  feedback : list jstring
}.

Definition in_range (lo hi : nat) (c : ascii) : bool :=
  (lo <=? nat_of_ascii c) && (nat_of_ascii c <=? hi).

Definition is_upper (c : ascii) : bool := in_range 65 90 c.
Definition is_lower (c : ascii) : bool := in_range 97 122 c.
Definition is_symbol (c : ascii) : bool :=
  existsb (Ascii.eqb c) PW_symbols.

(** The dot of a pattern matches every character but a line terminator. *)
Definition is_line_terminator (c : ascii) : bool :=
  Ascii.eqb c LF || Ascii.eqb c CR.

(** The pattern of one character followed by itself twice or more. *)
Fixpoint has_repeated_char (s : jstring) : bool :=
  match s with
  | a :: ((b :: c :: _) as rest) =>
      (negb (is_line_terminator a) && Ascii.eqb a b && Ascii.eqb a c)
      || has_repeated_char rest
  | _ => false
  end.

(** The pattern of one or more letters from start to end. *)
Definition only_letters (s : jstring) : bool :=
  (0 <? length s) && forallb (fun c => is_upper c || is_lower c) s.

Definition levels : list jstring :=
  [lit "weak"; lit "fair"; lit "good"; lit "strong"; lit "very-strong"].

Definition validatePasswordStrength (password : jstring) : PasswordStrength :=
  let feedback : list jstring := [] in
  let score := 0%Z in
  let score := if 8 <=? length password then (score + 1)%Z else score in
  let score := if 12 <=? length password then (score + 1)%Z else score in
  let score := if 16 <=? length password then (score + 1)%Z else score in
  let feedback :=
    if length password <? 8
    then feedback ++ [lit "Password should be at least 8 characters"]
    else feedback in
  let hasUppercase := existsb is_upper password in
  let hasLowercase := existsb is_lower password in
  let hasNumbers := existsb is_digit password in
  let hasSymbols := existsb is_symbol password in
  let score := if hasUppercase then (score + 1)%Z else score in
  let feedback :=
    if hasUppercase then feedback else feedback ++ [lit "Add uppercase letters"] in
  let score := if hasLowercase then (score + 1)%Z else score in
  let feedback :=
    if hasLowercase then feedback else feedback ++ [lit "Add lowercase letters"] in
  let score := if hasNumbers then (score + 1)%Z else score in
  let feedback :=
    if hasNumbers then feedback else feedback ++ [lit "Add numbers"] in
  let score := if hasSymbols then (score + 1)%Z else score in
  let feedback :=
    if hasSymbols then feedback else feedback ++ [lit "Add special characters"] in
  let score := if has_repeated_char password then (score - 1)%Z else score in
  let feedback :=
    if has_repeated_char password
    then feedback ++ [lit "Avoid repeated characters"]
    else feedback in
  let feedback :=
    if only_letters password
    then feedback ++ [lit "Mix in numbers and symbols"]
    else feedback in
  let normalizedScore := Z.max 0 (Z.min 4 (score / 2)) in
  mkPasswordStrength normalizedScore
    (nth (Z.to_nat normalizedScore) levels []) feedback.

End Password.

Import Password.

(* ====================================================================== *)
(** * The specification's wording, for comparison with the code *)
(* ====================================================================== *)

Module Spec.

(** The Luhn sum as the specification words it: the digits are visited
    from the rightmost one, whose position is 0; a digit at an odd position
    is doubled, 9 is subtracted from a doubled value above 9, and the
    results are added up. *)
Definition digit_value (c : ascii) : nat := nat_of_ascii c - 48.

Definition luhn_term (position : nat) (d : nat) : nat :=
  if Nat.odd position
  then (if 9 <? 2 * d then 2 * d - 9 else 2 * d)
  else d.

Fixpoint luhn_sum_from (position : nat) (right_to_left : list ascii) : nat :=
  match right_to_left with
  | [] => 0
  | c :: rest =>
      luhn_term position (digit_value c) + luhn_sum_from (S position) rest
  end.

Definition luhn_sum (digits : jstring) : nat := luhn_sum_from 0 (rev digits).










End Spec.

Import Spec.

(* ====================================================================== *)
(** * Auxiliary definitions of the proofs *)
(* ====================================================================== *)

Module Aux.

(** The character of the decimal digit [d]. *)
Definition digit_char (d : nat) : ascii := ascii_of_nat (48 + d).

(** The sum of the part before the last digit, as seen from a last digit
    appended to it. *)
Definition luhn_rest (partialNumber : jstring) : nat :=
  luhn_sum_from 1 (rev partialNumber).

(** The digit that completes a sum [t] to a multiple of ten. *)
Definition completing_digit (t : nat) : nat := (10 - t mod 10) mod 10.

(** The world after one call of [Math.random]. *)
Definition advance (w : World) : World :=
  mkWorld (rand_src w) (S (rand_pos w)) (now_year w).

(** The prefix set and the length [generateCardNumber] works with. *)
Definition card_prefixes_of (type : jstring) : list jstring :=
  match table_get CARD_PREFIXES type with
  | Some p => p
  | None =>
      match table_get CARD_PREFIXES (lit "visa") with
      | Some p => p
      | None => []
      end
  end.

Definition card_length_of (type : jstring) : Z :=
  number_or (table_get CARD_LENGTHS type) 16.

Definition all_digits (s : jstring) : Prop :=
  Forall (fun c => is_digit c = true) s.

Definition card_types : list jstring :=
  [lit "visa"; lit "mastercard"; lit "amex"; lit "discover"].

(** [values[index] || ''] *)
Definition cell_at (values : list jstring) (index : nat) : jstring :=
  match nth_error values index with
  | Some ((_ :: _) as v) => v
  | _ => []
  end.

(** The index, counted from [i], of the last occurrence of [key] in
    [headers]. *)
Fixpoint last_index (headers : list jstring) (i : nat) (key : jstring)
  : option nat :=
  match headers with
  | [] => None
  | h :: headers' =>
      match last_index headers' (S i) key with
      | Some k => Some k
      | None => if str_eqb h key then Some i else None
      end
  end.









(** The conditions of the round trip. A string is clean when [trim]
    leaves it as it is and it holds no line feed and no carriage return. *)
Definition no_line_break (s : jstring) : Prop := ~ In LF s /\ ~ In CR s.




(** The line [stringifyCSV] writes for cells. *)
Definition csv_line (d : jstring) (cells : list jstring) : jstring :=
  join d (map (fun cell => escapeField cell d) cells).

(** A string cut into pieces of four characters; the last piece has one
    to four characters, and the empty string is one empty piece. *)
Fixpoint chunks4 (s : jstring) : list jstring :=
  match s with
  | a :: b :: c :: d :: ((_ :: _) as rest) => [a; b; c; d] :: chunks4 rest
  | _ => [s]
  end.

(** [type || getCardType(digits) || 'visa'] *)
Definition resolved_card_type (digits : jstring) (type : option jstring)
  : jstring :=
  match type with
  | Some ((_ :: _) as t) => t
  | _ =>
      match getCardType digits with
      | Some t => t
      | None => lit "visa"
      end
  end.

(** The three groups of an amex number, and what follows them. *)
Definition amex_groups (digits : jstring) : jstring :=
  firstn 4 digits ++ [space] ++ firstn 6 (skipn 4 digits) ++ [space]
  ++ firstn 5 (skipn 10 digits) ++ skipn 15 digits.

(** [n] written with two digits. *)
Definition pad2 (n : Z) : jstring := padStart0 2 (toString n).

(** A computation that leaves the clock as it is. *)
Definition keeps_year {A} (m : M A) : Prop :=
  forall w r w', m w = (r, w') -> now_year w' = now_year w.


(** The name [parseCSV] makes up for the column of index [i]. *)
Definition column_name (i : nat) : jstring :=
  lit "column_" ++ toString (Z.of_nat i).


(** The options of [generatePassword] with their defaults, and the pool
    of characters it draws from. *)
Definition password_length (options : PasswordOptions) : Z :=
  match pw_length options with Some n => n | None => 12%Z end.

Definition password_exclude (options : PasswordOptions) : jstring :=
  match pw_excludeChars options with Some e => e | None => [] end.

Definition password_must (options : PasswordOptions) : list jstring :=
  match pw_mustInclude options with Some m => m | None => [] end.

Definition password_pool (options : PasswordOptions) : jstring :=
  let uppercase := match pw_uppercase options with Some b => b | None => true end in
  let lowercase := match pw_lowercase options with Some b => b | None => true end in
  let numbers := match pw_numbers options with Some b => b | None => true end in
  let symbols := match pw_symbols options with Some b => b | None => true end in
  let pool := [] in
  let pool := if uppercase then pool ++ PW_uppercase else pool in
  let pool := if lowercase then pool ++ PW_lowercase else pool in
  let pool := if numbers then pool ++ PW_numbers else pool in
  let pool := if symbols then pool ++ PW_symbols else pool in
  match password_exclude options with
  | _ :: _ => remove_excluded (password_exclude options) pool
  | [] => pool
  end.

(** The characters a required type can give once the excluded ones are
    removed, and the required types that can give one. *)
Definition required_charset (excludeChars type : jstring) : jstring :=
  remove_excluded excludeChars (charset_of_type type).

Definition satisfiable_types (excludeChars : jstring) (mustInclude : list jstring)
  : list jstring :=
  filter (fun type => 0 <? length (required_charset excludeChars type)) mustInclude.

(** A string of one character with a property. *)
Definition one_char (P : ascii -> Prop) (ch : jstring) : Prop :=
  exists c, ch = [c] /\ P c.

End Aux.

Import Aux.

(* ====================================================================== *)
(** * Strings *)
(* ====================================================================== *)

Lemma str_eqb_eq (a b : jstring) : str_eqb a b = true <-> a = b.
Proof.
  revert b; induction a as [|x a IH]; intros [|y b]; simpl;
    try (split; [discriminate | discriminate]); try tauto.
  rewrite andb_true_iff, Ascii.eqb_eq, IH.
  split; [intros [-> ->]; reflexivity | intros H; injection H; auto].
Qed.

Lemma str_eqb_refl (a : jstring) : str_eqb a a = true.
Proof. apply str_eqb_eq; reflexivity. Qed.

Lemma str_eqb_neq (a b : jstring) : a <> b -> str_eqb a b = false.
Proof.
  intros H; destruct (str_eqb a b) eqn:E; [|reflexivity].
  apply str_eqb_eq in E; contradiction.
Qed.

Lemma is_digit_char (c : ascii) :
  is_digit c = true -> exists d, d <= 9 /\ c = digit_char d.
Proof.
  unfold is_digit; rewrite andb_true_iff, !Nat.leb_le; intros [H1 H2].
  exists (nat_of_ascii c - 48); split; [lia|].
  unfold digit_char.
  replace (48 + (nat_of_ascii c - 48)) with (nat_of_ascii c) by lia.
  symmetry; apply ascii_nat_embedding.
Qed.

Ltac digit_cases d :=
  do 10 (destruct d as [|d]; [try reflexivity | try lia]); try lia.

Lemma digit_char_is_digit (d : nat) : d <= 9 -> is_digit (digit_char d) = true.
Proof. intros H; digit_cases d. Qed.

Lemma toString_digit (d : nat) :
  d <= 9 -> toString (Z.of_nat d) = [digit_char d].
Proof. intros H; digit_cases d. Qed.

Lemma parseInt10_digit (d : nat) : d <= 9 -> parseInt10 (digit_char d) = Some d.
Proof. intros H; digit_cases d. Qed.

Lemma digit_value_char (d : nat) : d <= 9 -> digit_value (digit_char d) = d.
Proof. intros H; digit_cases d. Qed.

Lemma strip_digits_id (s : jstring) :
  Forall (fun c => is_digit c = true) s -> strip_non_digits s = s.
Proof.
  unfold strip_non_digits; induction 1 as [|c s Hc _ IH]; simpl; [reflexivity|].
  rewrite Hc, IH; reflexivity.
Qed.

Lemma strip_digits_all (s : jstring) :
  Forall (fun c => is_digit c = true) (strip_non_digits s).
Proof.
  apply Forall_forall; intros c Hc.
  apply filter_In in Hc; tauto.
Qed.

(* ====================================================================== *)
(** * The Luhn check *)
(* ====================================================================== *)

(** On digits the loop of [luhnCheck] computes the sum of the
    specification: [isEven] holds exactly at the odd positions. *)
Lemma luhn_fold_digits (l : list ascii) :
  Forall (fun c => is_digit c = true) l ->
  forall position s,
    fold_left luhn_step l (Some s, Nat.odd position)
    = (Some (s + luhn_sum_from position l), Nat.odd (position + length l)).
Proof.
  induction 1 as [|c l Hc _ IH]; intros position s; simpl.
  - rewrite !Nat.add_0_r; reflexivity.
  - destruct (is_digit_char c Hc) as (d & Hd & ->).
    rewrite parseInt10_digit, digit_value_char by assumption.
    replace (negb (Nat.odd position)) with (Nat.odd (S position))
      by (rewrite Nat.odd_succ, <- Nat.negb_odd; reflexivity).
    replace (position + S (length l)) with (S position + length l) by lia.
    unfold luhn_term.
    destruct (Nat.odd position); simpl option_map; cbv iota beta;
      rewrite IH; f_equal; f_equal;
      replace (2 * d) with (d * 2) by lia;
      try destruct (9 <? d * 2); lia.
Qed.

Lemma luhnCheck_digits (digits : jstring) :
  Forall (fun c => is_digit c = true) digits ->
  luhnCheck digits = (luhn_sum digits mod 10 =? 0).
Proof.
  intros H; unfold luhnCheck, luhn_loop, luhn_sum.
  change false with (Nat.odd 0).
  rewrite luhn_fold_digits by (apply Forall_rev; assumption).
  reflexivity.
Qed.

Lemma luhnCheck_snoc (partialNumber : jstring) (d : nat) :
  Forall (fun c => is_digit c = true) partialNumber -> d <= 9 ->
  luhnCheck (partialNumber ++ toString (Z.of_nat d))
  = ((d + luhn_rest partialNumber) mod 10 =? 0).
Proof.
  intros Hp Hd; rewrite toString_digit by assumption.
  rewrite luhnCheck_digits.
  - unfold luhn_sum, luhn_rest; rewrite rev_app_distr.
    change (rev [digit_char d]) with [digit_char d].
    cbn [app luhn_sum_from]; unfold luhn_term at 1.
    change (Nat.odd 0) with false; cbv iota.
    rewrite digit_value_char by assumption; reflexivity.
  - apply Forall_app; split; [assumption|].
    constructor; [apply digit_char_is_digit; assumption | constructor].
Qed.

Lemma completing_digit_ok (t : nat) :
  completing_digit t <= 9 /\ (completing_digit t + t) mod 10 = 0.
Proof.
  unfold completing_digit.
  pose proof (Nat.mod_upper_bound t 10 ltac:(lia)) as Hb.
  pose proof (Nat.div_mod_eq t 10) as Ht.
  split; [pose proof (Nat.mod_upper_bound (10 - t mod 10) 10 ltac:(lia)); lia|].
  destruct (Nat.eq_dec (t mod 10) 0) as [E|E].
  - rewrite E, Nat.sub_0_r, Nat.Div0.mod_same, Nat.add_0_l; exact E.
  - rewrite (Nat.mod_small (10 - t mod 10)) by lia.
    replace (10 - t mod 10 + t) with (0 + (1 + t / 10) * 10) by lia.
    rewrite Nat.Div0.mod_add; reflexivity.
Qed.

Lemma completing_digit_unique (t d : nat) :
  d <= 9 -> (d + t) mod 10 = 0 -> d = completing_digit t.
Proof.
  intros Hd H.
  destruct (completing_digit_ok t) as [Hc Hz].
  pose proof (Nat.div_mod_eq (d + t) 10) as E1.
  pose proof (Nat.div_mod_eq (completing_digit t + t) 10) as E2.
  rewrite H in E1; rewrite Hz in E2; lia.
Qed.

(** The search of [calculateLuhnCheckDigit] stops at the first passing
    digit. *)
Lemma find_check_digit_first (p : jstring) (target : nat) :
  luhnCheck (p ++ toString (Z.of_nat target)) = true ->
  forall todo digit,
    digit <= target -> target < digit + todo ->
    (forall d, digit <= d -> d < target ->
               luhnCheck (p ++ toString (Z.of_nat d)) = false) ->
    find_check_digit p digit todo = Some target.
Proof.
  intros Ht; induction todo as [|todo IH]; intros digit Hle Hlt Hbefore.
  - lia.
  - simpl. destruct (Nat.eq_dec digit target) as [->|Hne].
    + rewrite Ht; reflexivity.
    + rewrite (Hbefore digit) by lia.
      apply IH; [lia | lia | intros d H1 H2; apply Hbefore; lia].
Qed.

Lemma calculateLuhnCheckDigit_digits (p : jstring) :
  Forall (fun c => is_digit c = true) p ->
  find_check_digit p 0 10 = Some (completing_digit (luhn_rest p)).
Proof.
  intros Hp.
  destruct (completing_digit_ok (luhn_rest p)) as [Hc Hz].
  apply find_check_digit_first.
  - rewrite luhnCheck_snoc by assumption. apply Nat.eqb_eq; exact Hz.
  - lia.
  - lia.
  - intros d _ Hd. rewrite luhnCheck_snoc by (assumption || lia).
    apply Nat.eqb_neq; intros E.
    apply completing_digit_unique in E; lia.
Qed.

(* ====================================================================== *)
(** * The random source *)
(* ====================================================================== *)

Lemma randomInt_ok (min max : Z) (w : World) :
  (min <= max)%Z ->
  exists v, randomInt min max w = (Ok v, advance w) /\ (min <= v <= max)%Z.
Proof.
  intros H; unfold randomInt.
  destruct (Z.ltb_spec max min) as [Hlt|_]; [lia|].
  unfold bind, math_random_floor, ret, advance.
  eexists; split; [reflexivity|].
  pose proof (Z.mod_pos_bound (Z.of_nat (rand_src w (rand_pos w))) (max - min + 1)
                ltac:(lia)).
  lia.
Qed.

Lemma randomElement_ok {T} (dflt : T) (array : list T) (w : World) :
  array <> [] ->
  exists x, randomElement dflt array w = (Ok x, advance w) /\ In x array.
Proof.
  intros Hne; unfold randomElement.
  destruct array as [|a array]; [contradiction|].
  change (length (a :: array) =? 0) with false; cbv iota.
  destruct (randomInt_ok 0 (Z.of_nat (length (a :: array)) - 1) w) as (i & Hi & Hr);
    [simpl length; lia|].
  unfold bind; rewrite Hi; unfold ret.
  eexists; split; [reflexivity|].
  apply nth_In; lia.
Qed.

Lemma append_random_digits_ok (n : nat) :
  forall number w,
  exists s w',
    append_random_digits n number w = (Ok (number ++ s), w')
    /\ length s = n /\ all_digits s /\ now_year w' = now_year w.
Proof.
  induction n as [|n IH]; intros number w; simpl.
  - exists [], w; unfold ret; rewrite app_nil_r.
    repeat split; constructor.
  - destruct (randomInt_ok 0 9 w ltac:(lia)) as (v & Hv & Hr).
    unfold bind at 1; rewrite Hv.
    destruct (IH (number ++ toString v) (advance w)) as (s & w' & Hs & Hl & Hd & Hy).
    rewrite Hs.
    replace v with (Z.of_nat (Z.to_nat v)) in * by lia.
    rewrite toString_digit in * by lia.
    exists (digit_char (Z.to_nat v) :: s), w'.
    rewrite <- app_assoc; simpl.
    repeat split; try (f_equal; assumption); try assumption.
    constructor; [apply digit_char_is_digit; lia | assumption].
Qed.

(* ====================================================================== *)
(** * Card number generation *)
(* ====================================================================== *)

Lemma calculateLuhnCheckDigit_ok (p : jstring) :
  all_digits p ->
  all_digits (calculateLuhnCheckDigit p)
  /\ length (calculateLuhnCheckDigit p) = 1
  /\ luhnCheck (p ++ calculateLuhnCheckDigit p) = true.
Proof.
  intros Hp; unfold calculateLuhnCheckDigit.
  rewrite calculateLuhnCheckDigit_digits by assumption.
  destruct (completing_digit_ok (luhn_rest p)) as [Hc Hz].
  rewrite luhnCheck_snoc by assumption.
  rewrite toString_digit by assumption.
  repeat split.
  - constructor; [apply digit_char_is_digit; assumption | constructor].
  - apply Nat.eqb_eq; assumption.
Qed.

Lemma generateCardNumber_ok (options : CardOptions) (w : World) :
  let type := match opt_type options with Some t => t | None => lit "visa" end in
  let valid := match opt_valid options with Some v => v | None => true end in
  card_prefixes_of type <> [] ->
  Forall (fun p => all_digits p
                   /\ (Z.of_nat (length p) + 1 <= card_length_of type)%Z)
         (card_prefixes_of type) ->
  exists s w',
    generateCardNumber options w = (Ok s, w')
    /\ all_digits s
    /\ Z.of_nat (length s) = card_length_of type
    /\ (exists prefix rest, In prefix (card_prefixes_of type) /\ s = prefix ++ rest)
    /\ (valid = true -> luhnCheck s = true).
Proof.
  intros type valid Hne Hall.
  unfold generateCardNumber.
  fold type; fold valid; fold (card_prefixes_of type); fold (card_length_of type).
  destruct (randomElement_ok [] (card_prefixes_of type) w Hne) as (prefix & Hp & Hin).
  unfold bind at 1; rewrite Hp.
  pose proof (proj1 (Forall_forall _ _) Hall prefix Hin) as [Hpd Hpl].
  destruct (append_random_digits_ok
              (Z.to_nat (card_length_of type - Z.of_nat (length prefix) - 1))
              prefix (advance w)) as (mid & w1 & Hm & Hml & Hmd & _).
  unfold bind at 1; rewrite Hm.
  assert (Hnum : all_digits (prefix ++ mid)) by (apply Forall_app; split; assumption).
  destruct valid eqn:Hv.
  - destruct (calculateLuhnCheckDigit_ok _ Hnum) as (Hcd & Hcl & Hck).
    exists ((prefix ++ mid) ++ calculateLuhnCheckDigit (prefix ++ mid)), w1.
    unfold ret; repeat split.
    + apply Forall_app; split; assumption.
    + rewrite !length_app, Hcl, Hml; lia.
    + exists prefix, (mid ++ calculateLuhnCheckDigit (prefix ++ mid)).
      split; [assumption | rewrite app_assoc; reflexivity].
    + intros _; assumption.
  - destruct (randomInt_ok 0 9 w1 ltac:(lia)) as (v & Hr & Hb).
    unfold bind; rewrite Hr; unfold ret.
    replace v with (Z.of_nat (Z.to_nat v)) by lia.
    rewrite toString_digit by lia.
    exists ((prefix ++ mid) ++ [digit_char (Z.to_nat v)]), (advance w1).
    repeat split.
    + apply Forall_app; split; [assumption|].
      constructor; [apply digit_char_is_digit; lia | constructor].
    + rewrite !length_app, Hml; simpl length; lia.
    + exists prefix, (mid ++ [digit_char (Z.to_nat v)]).
      split; [assumption | rewrite app_assoc; reflexivity].
    + discriminate.
Qed.



Lemma known_type_tables (t : jstring) :
  In t card_types ->
  card_prefixes_of t <> []
  /\ Forall (fun p => all_digits p
                      /\ (Z.of_nat (length p) + 1 <= card_length_of t)%Z)
            (card_prefixes_of t)
  /\ card_length_of t = (if str_eqb t (lit "amex") then 15 else 16)%Z.
Proof.
  unfold card_types; simpl In.
  intros [<-|[<-|[<-|[<-|[]]]]];
    (split; [discriminate|]); (split; [|reflexivity]);
    vm_compute card_prefixes_of; vm_compute card_length_of;
    repeat (constructor; [split; [repeat constructor | simpl; lia]|]);
    constructor.
Qed.

(** C2. For each of the four card types and every state of the random
    source, [generateCardNumber] returns a string of digits whose length
    is the one of the type, 15 for amex and 16 for the others; when
    [valid] is true or left out, [isValidCardNumber] accepts the string. *)
Theorem generateCardNumber_length_and_validity
    (t : jstring) (valid : option bool) (w : World) :
  In t card_types ->
  exists s w',
    generateCardNumber (mkCardOptions (Some t) valid) w = (Ok s, w')
    /\ all_digits s
    /\ length s = (if str_eqb t (lit "amex") then 15 else 16)
    /\ (valid <> Some false -> isValidCardNumber s = true).
Proof.
  intros Ht.
  destruct (known_type_tables t Ht) as (Hne & Hall & Hlen).
  destruct (generateCardNumber_ok (mkCardOptions (Some t) valid) w Hne Hall)
    as (s & w' & Hs & Hd & Hl & _ & Hv).
  cbn [opt_type opt_valid] in Hl, Hv.
  exists s, w'; split; [exact Hs|]; split; [exact Hd|].
  assert (Hlen' : length s = if str_eqb t (lit "amex") then 15 else 16).
  { rewrite Hlen in Hl; destruct (str_eqb t (lit "amex")); lia. }
  split; [exact Hlen'|].
  intros Hvalid.
  unfold isValidCardNumber; rewrite strip_digits_id by exact Hd.
  rewrite Hlen'.
  assert (Hluhn : luhnCheck s = true).
  { apply Hv; destruct valid as [[|]|]; [reflexivity | congruence | reflexivity]. }
  destruct (str_eqb t (lit "amex")); exact Hluhn.
Qed.

Lemma generateCardNumber_length_and_validity_witness :
  exists s w',
    generateCardNumber (mkCardOptions (Some (lit "amex")) (Some true))
                       (mkWorld (fun n => 7 * n + 3) 0 2026) = (Ok s, w')
    /\ all_digits s
    /\ length s = (if str_eqb (lit "amex") (lit "amex") then 15 else 16)
    /\ (Some true <> Some false -> isValidCardNumber s = true).
Proof.
  apply (generateCardNumber_length_and_validity (lit "amex") (Some true)).
  unfold card_types; simpl; tauto.
Defined.


(** C4. For a string of digits exactly one digit, appended to it, passes
    the Luhn check; the loop of [calculateLuhnCheckDigit] returns that
    digit, which is also the first passing one in ascending order, and
    does not reach the statement after the loop. *)
Theorem calculateLuhnCheckDigit_unique_digit (partialNumber : jstring) :
  all_digits partialNumber ->
  exists d,
    d <= 9
    /\ find_check_digit partialNumber 0 10 = Some d
    /\ calculateLuhnCheckDigit partialNumber = toString (Z.of_nat d)
    /\ luhnCheck (partialNumber ++ toString (Z.of_nat d)) = true
    /\ (forall d', d' <= 9 ->
                   luhnCheck (partialNumber ++ toString (Z.of_nat d')) = true ->
                   d' = d).
Proof.
  intros Hp.
  destruct (completing_digit_ok (luhn_rest partialNumber)) as [Hc Hz].
  exists (completing_digit (luhn_rest partialNumber)).
  split; [exact Hc|].
  split; [apply calculateLuhnCheckDigit_digits; exact Hp|].
  split.
  { unfold calculateLuhnCheckDigit.
    rewrite calculateLuhnCheckDigit_digits by exact Hp; reflexivity. }
  split.
  { rewrite luhnCheck_snoc by assumption. apply Nat.eqb_eq; exact Hz. }
  intros d' Hd' Hck.
  rewrite luhnCheck_snoc in Hck by assumption.
  apply Nat.eqb_eq in Hck.
  apply completing_digit_unique; assumption.
Qed.

Lemma calculateLuhnCheckDigit_unique_digit_witness :
  exists d,
    d <= 9
    /\ find_check_digit (lit "411111111111111") 0 10 = Some d
    /\ calculateLuhnCheckDigit (lit "411111111111111") = toString (Z.of_nat d)
    /\ luhnCheck (lit "411111111111111" ++ toString (Z.of_nat d)) = true
    /\ (forall d', d' <= 9 ->
                   luhnCheck (lit "411111111111111" ++ toString (Z.of_nat d')) = true ->
                   d' = d).
Proof.
  apply (calculateLuhnCheckDigit_unique_digit (lit "411111111111111")).
  repeat constructor.
Defined.

(** C6 (the code departs from the claim). With fewer digits than
    [visibleDigits], here the default 4, [maskCardNumber] throws a
    RangeError: the count handed to [repeat] is negative. The three other
    operations return on the same inputs. *)
Theorem maskCardNumber_throws_on_short_input :
  maskCardNumber (lit "123") 4
  = Throw (RangeError (lit "Invalid count value: -1"))
  /\ maskCardNumber (lit "") 4
    = Throw (RangeError (lit "Invalid count value: -4"))
  /\ isValidCardNumber (lit "123") = false
  /\ getCardType (lit "123") = None
  /\ formatCardNumber (lit "123") None = lit "123".
Proof. repeat split; vm_compute; reflexivity. Qed.

(** A count of digits below [visibleDigits] always throws. *)
Lemma maskCardNumber_short (number : jstring) (visibleDigits : Z) :
  (Z.of_nat (length (strip_non_digits number)) < visibleDigits)%Z ->
  exists message, maskCardNumber number visibleDigits = Throw (RangeError message).
Proof.
  intros H; unfold maskCardNumber, repeat_char.
  destruct (Z.ltb_spec (Z.of_nat (length (strip_non_digits number)) - visibleDigits) 0);
    [eexists; reflexivity | lia].
Qed.

(** With at least [visibleDigits] digits, and [visibleDigits] not
    negative, it returns. *)
Lemma maskCardNumber_long (number : jstring) (visibleDigits : Z) :
  (visibleDigits <= Z.of_nat (length (strip_non_digits number)))%Z ->
  exists s, maskCardNumber number visibleDigits = Ok s.
Proof.
  intros H; unfold maskCardNumber, repeat_char.
  destruct (Z.ltb_spec (Z.of_nat (length (strip_non_digits number)) - visibleDigits) 0);
    [lia | eexists; reflexivity].
Qed.



(* ====================================================================== *)
(** * Substrings *)
(* ====================================================================== *)

Lemma startsWith_spec (p s : jstring) :
  startsWith s p = true <-> exists post, s = p ++ post.
Proof.
  revert s; induction p as [|x p IH]; intros s; simpl.
  - split; [intros _; exists s; reflexivity | reflexivity].
  - destruct s as [|y s].
    + split; [discriminate | intros [post H]; discriminate H].
    + rewrite andb_true_iff, Ascii.eqb_eq, IH. split.
      * intros [-> [post ->]]; exists post; reflexivity.
      * intros [post H]; injection H as -> ->; split; [reflexivity | eauto].
Qed.

Lemma includes_spec (s needle : jstring) :
  includes s needle = true <-> exists pre post, s = pre ++ needle ++ post.
Proof.
  induction s as [|c s IH]; simpl; rewrite orb_true_iff, startsWith_spec.
  - split.
    + intros [[post H]|H]; [|discriminate]. exists [], post; exact H.
    + intros (pre & post & H). left.
      destruct pre; [exists post; exact H | discriminate H].
  - rewrite IH; split.
    + intros [[post H]|(pre & post & H)].
      * exists [], post; exact H.
      * exists (c :: pre), post; simpl; rewrite H; reflexivity.
    + intros (pre & post & H). destruct pre as [|x pre].
      * left; exists post; exact H.
      * right; injection H as _ H; exists pre, post; exact H.
Qed.

Lemma includes_char (s : jstring) (c : ascii) :
  includes s [c] = true <-> In c s.
Proof.
  rewrite includes_spec; split.
  - intros (pre & post & ->). apply in_or_app; right; left; reflexivity.
  - intros H; apply in_split in H as (pre & post & ->).
    exists pre, post; reflexivity.
Qed.

Lemma includes_char_false (s : jstring) (c : ascii) :
  includes s [c] = false <-> ~ In c s.
Proof.
  rewrite <- includes_char; destruct (includes s [c]); split;
    congruence || (intros H; exfalso; apply H; reflexivity).
Qed.

(* ====================================================================== *)
(** * Rows *)
(* ====================================================================== *)

Lemma cell_at_nth (values : list jstring) (index : nat) :
  cell_at values index = nth index values [].
Proof.
  unfold cell_at; revert index; induction values as [|v values IH];
    intros [|index]; simpl; try reflexivity.
  - destruct v; reflexivity.
  - apply IH.
Qed.

Lemma row_get_set (row : Row) (k v key : jstring) :
  row_get (row_set row k v) key
  = if str_eqb k key then Some v else row_get row key.
Proof.
  induction row as [|[k0 v0] row IH]; simpl.
  - reflexivity.
  - destruct (str_eqb k0 k) eqn:E0; simpl.
    + apply str_eqb_eq in E0; subst k0.
      destruct (str_eqb k key); reflexivity.
    + rewrite IH. destruct (str_eqb k0 key) eqn:E1; [|reflexivity].
      apply str_eqb_eq in E1; subst k0.
      destruct (str_eqb k key) eqn:E2; [|reflexivity].
      apply str_eqb_eq in E2; subst k.
      rewrite str_eqb_refl in E0; discriminate.
Qed.

Lemma row_set_fresh (row : Row) (k v : jstring) :
  ~ In k (keys row) -> row_set row k v = row ++ [(k, v)].
Proof.
  induction row as [|[k0 v0] row IH]; simpl; intros H; [reflexivity|].
  rewrite str_eqb_neq by tauto. rewrite IH by tauto. reflexivity.
Qed.

Lemma fill_row_cons (h : jstring) (headers : list jstring) (i : nat)
    (values : list jstring) (row : Row) :
  fill_row (h :: headers) i values row
  = fill_row headers (S i) values (row_set row h (cell_at values i)).
Proof. reflexivity. Qed.

Lemma fill_row_get (headers : list jstring) :
  forall i values row key,
    row_get (fill_row headers i values row) key
    = match last_index headers i key with
      | Some k => Some (nth k values [])
      | None => row_get row key
      end.
Proof.
  induction headers as [|h headers IH]; intros i values row key.
  - reflexivity.
  - rewrite fill_row_cons, IH, row_get_set, cell_at_nth.
    cbn [last_index].
    destruct (last_index headers (S i) key); [reflexivity|].
    destruct (str_eqb h key); reflexivity.
Qed.

Lemma last_index_sound (headers : list jstring) :
  forall i key k,
    last_index headers i key = Some k ->
    i <= k /\ nth_error headers (k - i) = Some key.
Proof.
  induction headers as [|h headers IH]; intros i key k; simpl; [discriminate|].
  destruct (last_index headers (S i) key) as [k'|] eqn:E.
  - intros H; injection H as <-. apply IH in E as [H1 H2].
    split; [lia|]. replace (k' - i) with (S (k' - S i)) by lia. exact H2.
  - destruct (str_eqb h key) eqn:Eh; [|discriminate].
    intros H; injection H as <-. apply str_eqb_eq in Eh; subst h.
    rewrite Nat.sub_diag; split; [lia | reflexivity].
Qed.

Lemma last_index_ge (headers : list jstring) :
  forall i j key,
    nth_error headers j = Some key ->
    exists k, last_index headers i key = Some k /\ i + j <= k.
Proof.
  induction headers as [|h headers IH]; intros i j key H.
  - destruct j; discriminate H.
  - simpl. destruct j as [|j]; simpl in H.
    + injection H as ->.
      destruct (last_index headers (S i) key) as [k|] eqn:E.
      * exists k; split; [reflexivity|].
        apply last_index_sound in E; lia.
      * rewrite str_eqb_refl; exists i; split; [reflexivity | lia].
    + destruct (IH (S i) j key H) as (k & -> & Hk).
      exists k; split; [reflexivity | lia].
Qed.

Lemma last_index_nodup (headers : list jstring) (j : nat) (key : jstring) :
  NoDup headers -> nth_error headers j = Some key ->
  last_index headers 0 key = Some j.
Proof.
  intros Hnd Hj.
  destruct (last_index_ge headers 0 j key Hj) as (k & Hk & Hle).
  rewrite Hk; f_equal.
  apply last_index_sound in Hk as [_ Hk]; rewrite Nat.sub_0_r in Hk.
  symmetry. apply (proj1 (NoDup_nth_error headers) Hnd).
  - apply nth_error_Some; congruence.
  - congruence.
Qed.

Lemma fill_row_fresh (headers : list jstring) :
  forall i values row,
    NoDup (keys row ++ headers) ->
    fill_row headers i values row
    = row ++ combine headers
               (map (fun k => nth k values []) (seq i (length headers))).
Proof.
  induction headers as [|h headers IH]; intros i values row Hnd.
  - simpl; rewrite app_nil_r; reflexivity.
  - rewrite fill_row_cons, cell_at_nth. cbn [length seq map combine].
    assert (Hh : ~ In h (keys row)).
    { apply NoDup_remove_2 in Hnd. intros Hin; apply Hnd.
      apply in_or_app; left; exact Hin. }
    rewrite row_set_fresh by exact Hh.
    rewrite IH.
    + rewrite <- app_assoc; reflexivity.
    + unfold keys in *; rewrite map_app, <- app_assoc; exact Hnd.
Qed.

Lemma keys_combine (ks vs : list jstring) :
  length ks = length vs -> keys (combine ks vs) = ks.
Proof.
  revert vs; induction ks as [|k ks IH]; intros [|v vs] H; simpl in *;
    try reflexivity; try discriminate.
  f_equal; apply IH; lia.
Qed.



Lemma parseCSV_eq (content : jstring) (options : CSVOptions) :
  parseCSV content options
  = map (fun line =>
           fill_row (csv_headers content options) 0
                    (parseLine line (opt_delimiter options)) [])
        (csv_dataLines content options).
Proof.
  unfold parseCSV, csv_dataLines.
  destruct (filteredLines content options); [|reflexivity].
  destruct (opt_hasHeaders options); reflexivity.
Qed.

(* ====================================================================== *)
(** * Escaping a field *)
(* ====================================================================== *)

Lemma double_quotes_app (a b : jstring) :
  double_quotes (a ++ b) = double_quotes a ++ double_quotes b.
Proof. unfold double_quotes; apply flat_map_app. Qed.

Lemma needs_quoting_spec (value delimiter : jstring) :
  includes value delimiter || includes value [quote]
  || includes value [LF] || includes value [CR] = true
  <-> ((exists pre post, value = pre ++ delimiter ++ post)
       \/ In quote value \/ In LF value \/ In CR value).
Proof.
  rewrite !orb_true_iff, includes_spec, !includes_char; tauto.
Qed.

(** C8. [escapeField] wraps a value in double quotes, doubling the double
    quotes inside it, exactly when the value contains the delimiter, a
    double quote, a line feed or a carriage return, and returns every
    other value unchanged; the two rows with the notes [has, a comma] and
    [has "quotes"] are written as the three lines of the specification. *)
Theorem escapeField_quotes_when_needed :
  (forall value delimiter,
     (exists pre post, value = pre ++ delimiter ++ post)
     \/ In quote value \/ In LF value \/ In CR value ->
     escapeField value delimiter = [quote] ++ double_quotes value ++ [quote])
  /\ (forall value delimiter,
        ~ ((exists pre post, value = pre ++ delimiter ++ post)
           \/ In quote value \/ In LF value \/ In CR value) ->
        escapeField value delimiter = value)
  /\ (forall a b, double_quotes (a ++ b) = double_quotes a ++ double_quotes b)
  /\ double_quotes [quote] = [quote; quote]
  /\ (forall c, c <> quote -> double_quotes [c] = [c])
  /\ stringifyCSV
       [ [(lit "note", lit "has, a comma")];
         [(lit "note", lit "has " ++ [quote] ++ lit "quotes" ++ [quote])] ]
       (mkCSVOptions None (Some true) None None)
     = lit "note" ++ [LF]
       ++ [quote] ++ lit "has, a comma" ++ [quote] ++ [LF]
       ++ [quote] ++ lit "has " ++ [quote; quote] ++ lit "quotes"
       ++ [quote; quote] ++ [quote].
Proof.
  split.
  { intros value delimiter H. apply needs_quoting_spec in H.
    unfold escapeField; rewrite H; reflexivity. }
  split.
  { intros value delimiter H. unfold escapeField.
    destruct (includes value delimiter || includes value [quote]
              || includes value [LF] || includes value [CR]) eqn:E;
      [|reflexivity].
    apply needs_quoting_spec in E; contradiction. }
  split; [exact double_quotes_app|].
  split; [reflexivity|].
  split.
  { intros c Hc; unfold double_quotes; simpl.
    destruct (Ascii.eqb_spec c quote); [contradiction | reflexivity]. }
  vm_compute; reflexivity.
Qed.

(* ====================================================================== *)
(** * Rows of [parseCSV] *)
(* ====================================================================== *)

Lemma parseCSV_nth (content : jstring) (options : CSVOptions) (i : nat)
    (line : jstring) :
  nth_error (csv_dataLines content options) i = Some line ->
  nth_error (parseCSV content options) i
  = Some (fill_row (csv_headers content options) 0
                   (parseLine line (opt_delimiter options)) []).
Proof.
  intros H; rewrite parseCSV_eq, nth_error_map, H; reflexivity.
Qed.






(* ====================================================================== *)
(** * Validation *)
(* ====================================================================== *)















(* ====================================================================== *)
(** * White space and lines *)
(* ====================================================================== *)







Lemma split_lines_cons (c : ascii) (s : jstring) :
  c <> LF -> c <> CR ->
  split_lines (c :: s)
  = match split_lines s with
    | [] => [[c]]
    | l :: ls => (c :: l) :: ls
    end.
Proof.
  intros H1 H2; cbn [split_lines].
  destruct (Ascii.eqb_spec c LF); [contradiction|].
  destruct (Ascii.eqb_spec c CR); [contradiction|].
  reflexivity.
Qed.

Lemma split_lines_app (l rest : jstring) :
  no_line_break l ->
  split_lines (l ++ LF :: rest) = l :: split_lines rest.
Proof.
  intros [H1 H2]; induction l as [|c l IH]; simpl app.
  - reflexivity.
  - rewrite split_lines_cons, IH; simpl in *; tauto.
Qed.

Lemma split_lines_single (l : jstring) :
  no_line_break l -> split_lines l = [l].
Proof.
  intros [H1 H2]; induction l as [|c l IH].
  - reflexivity.
  - rewrite split_lines_cons, IH; simpl in *; tauto.
Qed.

Lemma split_lines_join (ls : list jstring) :
  forall l,
    Forall no_line_break (l :: ls) ->
    split_lines (join [LF] (l :: ls)) = l :: ls.
Proof.
  induction ls as [|l2 ls IH]; intros l H.
  - apply split_lines_single; inversion H; assumption.
  - change (join [LF] (l :: l2 :: ls)) with (l ++ LF :: join [LF] (l2 :: ls)).
    inversion H; subst.
    rewrite split_lines_app by assumption.
    rewrite IH by assumption; reflexivity.
Qed.

(* ====================================================================== *)
(** * Parsing what was written *)
(* ====================================================================== *)


Section RoundTrip.

Variable d : ascii.
Hypothesis d_not_quote : d <> quote.

(** Outside quotes a character that is neither a quote nor the delimiter
    extends the current field. *)
Lemma parseLine_loop_plain (v : jstring) :
  forall rest current result,
    ~ In quote v -> ~ In d v ->
    parseLine_loop [d] (v ++ rest) false current result
    = parseLine_loop [d] rest false (current ++ v) result.
Proof.
  induction v as [|c v IH]; intros rest current result Hq Hd.
  - rewrite app_nil_r; reflexivity.
  - simpl app; cbn [parseLine_loop str_eqb].
    destruct (Ascii.eqb_spec c quote) as [->|_]; [exfalso; apply Hq; left; reflexivity|].
    destruct (Ascii.eqb_spec c d) as [->|_]; [exfalso; apply Hd; left; reflexivity|].
    cbn [andb]. rewrite IH by (simpl in *; tauto).
    rewrite <- app_assoc; reflexivity.
Qed.

(** Inside quotes the doubled text of [v], closed by a quote that no
    quote follows, adds [v] to the current field. *)
Lemma parseLine_loop_quoted (v : jstring) :
  forall rest current result,
    match rest with c :: _ => c <> quote | [] => True end ->
    parseLine_loop [d] (double_quotes v ++ quote :: rest) true current result
    = parseLine_loop [d] rest false (current ++ v) result.
Proof.
  induction v as [|c v IH]; intros rest current result Hrest.
  - rewrite app_nil_r. change (double_quotes [] ++ quote :: rest) with (quote :: rest).
    cbn [parseLine_loop]. rewrite Ascii.eqb_refl.
    destruct rest as [|c rest]; [reflexivity|].
    destruct (Ascii.eqb_spec c quote); [contradiction | reflexivity].
  - change (double_quotes (c :: v))
      with ((if Ascii.eqb c quote then [quote; quote] else [c]) ++ double_quotes v).
    destruct (Ascii.eqb_spec c quote) as [->|Hc].
    + simpl app; cbn [parseLine_loop]. rewrite Ascii.eqb_refl.
      rewrite IH by exact Hrest. rewrite <- app_assoc; reflexivity.
    + simpl app; cbn [parseLine_loop].
      destruct (Ascii.eqb_spec c quote); [contradiction|].
      rewrite IH by exact Hrest. rewrite <- app_assoc; reflexivity.
Qed.

(** An escaped field, at the end of the line or before a delimiter, is
    read back as the field. *)
Lemma parseLine_loop_field (v rest current : jstring) (result : list jstring) :
  match rest with c :: _ => c <> quote | [] => True end ->
  parseLine_loop [d] (escapeField v [d] ++ rest) false current result
  = parseLine_loop [d] rest false (current ++ v) result.
Proof.
  intros Hrest; unfold escapeField.
  destruct (includes v [d] || includes v [quote]
            || includes v [LF] || includes v [CR]) eqn:E.
  - change (([quote] ++ double_quotes v ++ [quote]) ++ rest)
      with (quote :: ((double_quotes v ++ [quote]) ++ rest)).
    rewrite <- app_assoc; simpl app.
    cbn [parseLine_loop]. rewrite Ascii.eqb_refl.
    apply parseLine_loop_quoted; exact Hrest.
  - apply orb_false_iff in E as [E _]. apply orb_false_iff in E as [E _].
    apply orb_false_iff in E as [Ed Eq].
    apply parseLine_loop_plain; apply includes_char_false; assumption.
Qed.

(** A written line is read back as its cells, each trimmed. *)
Lemma parseLine_loop_csv_line (cells : list jstring) :
  forall cell result,
    parseLine_loop [d] (csv_line [d] (cell :: cells)) false [] result
    = result ++ map trim (cell :: cells).
Proof.
  unfold csv_line.
  induction cells as [|cell2 cells IH]; intros cell result.
  - simpl map; simpl join.
    rewrite <- (app_nil_r (escapeField cell [d])).
    rewrite parseLine_loop_field by exact I. reflexivity.
  - change (join [d] (map (fun c => escapeField c [d]) (cell :: cell2 :: cells)))
      with (escapeField cell [d]
            ++ d :: join [d] (map (fun c => escapeField c [d]) (cell2 :: cells))).
    rewrite parseLine_loop_field by exact d_not_quote.
    cbn [parseLine_loop str_eqb].
    destruct (Ascii.eqb_spec d quote); [contradiction|].
    rewrite Ascii.eqb_refl; cbn [andb].
    rewrite IH. simpl app. rewrite <- app_assoc; reflexivity.
Qed.

Lemma parseLine_csv_line (cells : list jstring) :
  cells <> [] ->
  parseLine (csv_line [d] cells) [d] = map trim cells.
Proof.
  intros Hne; destruct cells as [|cell cells]; [contradiction|].
  unfold parseLine; rewrite parseLine_loop_csv_line; reflexivity.
Qed.

End RoundTrip.

(* ====================================================================== *)
(** * The lines [stringifyCSV] writes *)
(* ====================================================================== *)







Section Lines.

Variable d : ascii.
Hypothesis d_visible : is_ws d = false.



End Lines.



(* ====================================================================== *)
(** * The round trip *)
(* ====================================================================== *)






(* ====================================================================== *)
(** * Further examples of the specification *)
(* ====================================================================== *)

(** [getCardType] answers with the first type, in the order of the table,
    one of whose prefixes starts the digits: visa for 4111111111111111,
    discover for 6011000000000000, and no type for 9999999999999999. *)
Example getCardType_examples :
  getCardType (lit "4111111111111111") = Some (lit "visa")
  /\ getCardType (lit "6011000000000000") = Some (lit "discover")
  /\ getCardType (lit "9999999999999999") = None.
Proof. repeat split; reflexivity. Qed.

(** With the default options the text [name,age], [Alice,30], [Bob,25]
    parses to the two rows name=Alice, age=30 and name=Bob, age=25. *)
Example parseCSV_example :
  parseCSV (lit "name,age" ++ [LF] ++ lit "Alice,30" ++ [LF] ++ lit "Bob,25")
           no_options
  = [ [(lit "name", lit "Alice"); (lit "age", lit "30")];
      [(lit "name", lit "Bob"); (lit "age", lit "25")] ].
Proof. vm_compute; reflexivity. Qed.

(** [maskCardNumber] hands the masked text to [formatCardNumber], which
    first drops every character that is not a digit, the mask characters
    included: of 4111111111111111 only the visible 1111 is returned. *)
Example maskCardNumber_drops_the_mask :
  maskCardNumber (lit "4111111111111111") 4 = Ok (lit "1111")
  /\ formatCardNumber (lit "************1111") None = lit "1111".
Proof. split; vm_compute; reflexivity. Qed.

(* ====================================================================== *)
(** * src/generators/random.ts: ranges, strings and shuffling *)
(* ====================================================================== *)


(** [randomElement] returns a member of a non-empty array and throws on
    the empty one. *)
Theorem randomElement_member (T : Type) (dflt : T) (array : list T) (w : World) :
  (array <> [] ->
   exists x, randomElement dflt array w = (Ok x, advance w) /\ In x array)
  /\ (array = [] ->
      randomElement dflt array w
      = (Throw (Error (lit "Cannot get random element from empty array")), w)).
Proof.
  split; [apply randomElement_ok|]. intros ->; reflexivity.
Qed.

Lemma charAt_in_range (s : jstring) (i : Z) :
  (0 <= i < Z.of_nat (length s))%Z ->
  exists c, charAt s i = [c] /\ In c s.
Proof.
  intros H; unfold charAt. destruct (Z.ltb_spec i 0); [lia|].
  destruct (nth_error s (Z.to_nat i)) as [c|] eqn:E.
  - exists c; split; [reflexivity|]. eapply nth_error_In; exact E.
  - apply nth_error_None in E; lia.
Qed.

Lemma randomString_loop_ok (chars : jstring) (n : nat) :
  chars <> [] ->
  forall result w,
  exists s w',
    randomString_loop n chars result w = (Ok (result ++ s), w')
    /\ length s = n /\ Forall (fun c => In c chars) s.
Proof.
  intros Hne; induction n as [|n IH]; intros result w; simpl.
  - exists [], w; unfold ret; rewrite app_nil_r; repeat split; constructor.
  - assert (Hlen : (0 <= Z.of_nat (length chars) - 1)%Z)
      by (destruct chars; [contradiction | simpl length; lia]).
    destruct (randomInt_ok 0 (Z.of_nat (length chars) - 1) w Hlen) as (i & Hi & Hr).
    unfold bind at 1; rewrite Hi.
    destruct (charAt_in_range chars i ltac:(lia)) as (c & Hc & Hin).
    rewrite Hc.
    destruct (IH (result ++ [c]) (advance w)) as (s & w' & Hs & Hl & Hall).
    exists (c :: s), w'. rewrite Hs, <- app_assoc.
    repeat split; [simpl; lia | constructor; assumption].
Qed.

(** [randomString] returns exactly [length] characters, each taken from
    the character set, which is the alphanumeric one when none or an empty
    one is given; a negative length throws. *)
Theorem randomString_length_and_charset
    (length_ : Z) (charset : option jstring) (w : World) :
  let chars :=
    match charset with
    | Some ((_ :: _) as c) => c
    | _ => CHARSETS_alphanumeric
    end in
  ((0 <= length_)%Z ->
   exists s w',
     randomString length_ charset w = (Ok s, w')
     /\ Z.of_nat (length s) = length_
     /\ Forall (fun c => In c chars) s)
  /\ ((length_ < 0)%Z ->
      randomString length_ charset w
      = (Throw (Error (lit "length must be non-negative")), w)).
Proof.
  intros chars; split.
  - intros Hlen; unfold randomString.
    destruct (Z.ltb_spec length_ 0); [lia|]. fold chars.
    assert (Hne : chars <> [])
      by (subst chars; destruct charset as [[|c cs]|]; discriminate).
    destruct (randomString_loop_ok chars (Z.to_nat length_) Hne [] w)
      as (s & w' & Hs & Hl & Hall).
    exists s, w'; repeat split; [exact Hs | lia | exact Hall].
  - intros Hneg; unfold randomString.
    destruct (Z.ltb_spec length_ 0); [reflexivity | lia].
Qed.

Lemma set_nth_length {T} (l : list T) :
  forall i v, length (set_nth l i v) = length l.
Proof.
  induction l as [|x l IH]; intros [|i] v; simpl; try reflexivity.
  rewrite IH; reflexivity.
Qed.

Lemma set_nth_swap_head {T} (l : list T) :
  forall j b x,
    nth_error l j = Some b ->
    Permutation (b :: set_nth l j x) (x :: l).
Proof.
  induction l as [|y l IH]; intros [|j] b x H; simpl in H; try discriminate.
  - injection H as ->. simpl. apply perm_swap.
  - simpl. eapply perm_trans; [apply perm_swap|].
    eapply perm_trans; [apply perm_skip; apply (IH j b x H)|].
    apply perm_swap.
Qed.

Lemma swap_permutation {T} (l : list T) :
  forall i j, Permutation (swap l i j) l.
Proof.
  unfold swap; induction l as [|x l IH]; intros i j.
  - destruct i, j; reflexivity.
  - destruct i as [|i], j as [|j]; simpl.
    + reflexivity.
    + destruct (nth_error l j) as [b|] eqn:E; [|reflexivity].
      apply set_nth_swap_head; exact E.
    + destruct (nth_error l i) as [a|] eqn:E; [|reflexivity].
      apply set_nth_swap_head; exact E.
    + specialize (IH i j).
      destruct (nth_error l i) as [a|]; [|reflexivity].
      destruct (nth_error l j) as [b|]; [|reflexivity].
      apply perm_skip; exact IH.
Qed.

Lemma shuffle_loop_ok {T} (i : nat) :
  forall (result : list T) w,
  exists r w', shuffle_loop i result w = (Ok r, w') /\ Permutation r result.
Proof.
  induction i as [|i IH]; intros result w; cbn [shuffle_loop].
  - exists result, w; split; reflexivity.
  - destruct (randomInt_ok 0 (Z.of_nat (S i)) w ltac:(lia)) as (j & Hj & _).
    unfold bind; rewrite Hj.
    destruct (IH (swap result (S i) (Z.to_nat j)) (advance w)) as (r & w' & Hr & Hp).
    exists r, w'; split; [exact Hr|].
    eapply perm_trans; [exact Hp | apply swap_permutation].
Qed.

Lemma shuffle_is_permutation_aux {T} (array : list T) (w : World) :
  exists r w', shuffle array w = (Ok r, w') /\ Permutation r array.
Proof. apply shuffle_loop_ok. Qed.

(** [shuffle] never throws, and its result is a rearrangement of the
    array: the same elements, each as often as before. *)
Theorem shuffle_is_permutation (T : Type) (array : list T) (w : World) :
  exists r w',
    shuffle array w = (Ok r, w')
    /\ Permutation r array /\ length r = length array.
Proof.
  destruct (shuffle_is_permutation_aux array w) as (r & w' & Hr & Hp).
  exists r, w'; split; [exact Hr|]; split; [exact Hp|].
  apply Permutation_length; exact Hp.
Qed.

(** [randomElements] returns [count] elements drawn without replacement:
    together with the elements left over they are a rearrangement of the
    array. A negative count, or one above the length, throws. *)
Theorem randomElements_without_replacement
    (T : Type) (array : list T) (count : Z) (w : World) :
  ((0 <= count <= Z.of_nat (length array))%Z ->
   exists r rest w',
     randomElements array count w = (Ok r, w')
     /\ Z.of_nat (length r) = count
     /\ Permutation (r ++ rest) array)
  /\ ((count < 0)%Z ->
      randomElements array count w
      = (Throw (Error (lit "count must be non-negative")), w))
  /\ ((Z.of_nat (length array) < count)%Z ->
      exists e, randomElements array count w = (Throw e, w)).
Proof.
  unfold randomElements. split; [|split].
  - intros [H0 H1].
    destruct (Z.ltb_spec count 0); [lia|].
    destruct (Z.ltb_spec (Z.of_nat (length array)) count); [lia|].
    destruct (shuffle_is_permutation_aux array w) as (r & w' & Hr & Hp).
    unfold bind; rewrite Hr; unfold ret.
    exists (firstn (Z.to_nat count) r), (skipn (Z.to_nat count) r), w'.
    split; [reflexivity|]. split.
    + rewrite length_firstn. apply Permutation_length in Hp. lia.
    + rewrite firstn_skipn; exact Hp.
  - intros H; destruct (Z.ltb_spec count 0); [reflexivity | lia].
  - intros H; destruct (Z.ltb_spec count 0); [eexists; reflexivity|].
    destruct (Z.ltb_spec (Z.of_nat (length array)) count); [|lia].
    eexists; reflexivity.
Qed.

(* ====================================================================== *)
(** * src/generators/card.ts: what the Luhn check detects *)
(* ====================================================================== *)

Lemma luhn_sum_from_app (l1 l2 : list ascii) :
  forall position,
    luhn_sum_from position (l1 ++ l2)
    = luhn_sum_from position l1 + luhn_sum_from (position + length l1) l2.
Proof.
  induction l1 as [|c l1 IH]; intros position; simpl.
  - rewrite Nat.add_0_r; reflexivity.
  - rewrite IH. replace (S position + length l1) with (position + S (length l1)) by lia.
    lia.
Qed.

Lemma luhn_term_injective (position x y : nat) :
  x <= 9 -> y <= 9 -> luhn_term position x = luhn_term position y -> x = y.
Proof.
  unfold luhn_term; intros Hx Hy.
  destruct (Nat.odd position); [|lia].
  destruct (Nat.ltb_spec 9 (2 * x)), (Nat.ltb_spec 9 (2 * y)); lia.
Qed.

Lemma luhn_term_bound (position x : nat) : x <= 9 -> luhn_term position x <= 9.
Proof.
  unfold luhn_term; intros Hx. destruct (Nat.odd position); [|lia].
  destruct (Nat.ltb_spec 9 (2 * x)); lia.
Qed.

Lemma luhnCheck_single_digit (a b : jstring) (x y : nat) :
  all_digits a -> all_digits b -> x <= 9 -> y <= 9 -> x <> y ->
  luhnCheck (a ++ digit_char x :: b) = true ->
  luhnCheck (a ++ digit_char y :: b) = false.
Proof.
  intros Ha Hb Hx Hy Hne.
  assert (Hall : forall z, z <= 9 -> all_digits (a ++ digit_char z :: b)).
  { intros z Hz; apply Forall_app; split; [exact Ha|].
    constructor; [apply digit_char_is_digit; exact Hz | exact Hb]. }
  rewrite !luhnCheck_digits by (apply Hall; assumption).
  unfold luhn_sum. rewrite !rev_app_distr; simpl rev.
  rewrite <- !app_assoc; simpl app.
  rewrite !luhn_sum_from_app; cbn [luhn_sum_from].
  rewrite !digit_value_char by assumption.
  set (p := 0 + length (rev b)).
  set (s1 := luhn_sum_from 0 (rev b)). set (s2 := luhn_sum_from (S p) (rev a)).
  intros H; apply Nat.eqb_eq in H. apply Nat.eqb_neq; intros H'.
  pose proof (luhn_term_bound p x Hx). pose proof (luhn_term_bound p y Hy).
  assert (luhn_term p x <> luhn_term p y)
    by (intros E; apply Hne; eapply luhn_term_injective; eassumption).
  pose proof (Nat.div_mod_eq (s1 + (luhn_term p x + s2)) 10).
  pose proof (Nat.div_mod_eq (s1 + (luhn_term p y + s2)) 10).
  lia.
Qed.

Lemma strip_around_digit (a b : jstring) (x : nat) :
  x <= 9 ->
  strip_non_digits (a ++ digit_char x :: b)
  = strip_non_digits a ++ digit_char x :: strip_non_digits b.
Proof.
  intros Hx; unfold strip_non_digits. rewrite filter_app; cbn [filter].
  rewrite digit_char_is_digit by exact Hx; reflexivity.
Qed.

(** A number that [isValidCardNumber] accepts is rejected once any one
    of its digits is replaced by a different digit, whatever separators
    stand around the digits. *)
Theorem isValidCardNumber_detects_single_digit_error
    (before after : jstring) (x y : nat) :
  x <= 9 -> y <= 9 -> x <> y ->
  isValidCardNumber (before ++ digit_char x :: after) = true ->
  isValidCardNumber (before ++ digit_char y :: after) = false.
Proof.
  intros Hx Hy Hne; unfold isValidCardNumber.
  rewrite !strip_around_digit by assumption.
  rewrite !length_app; cbn [length].
  destruct ((length (strip_non_digits before) + S (length (strip_non_digits after)) <? 13)
            || (19 <? length (strip_non_digits before)
                      + S (length (strip_non_digits after)))); [reflexivity|].
  apply luhnCheck_single_digit; try assumption; apply strip_digits_all.
Qed.

Lemma isValidCardNumber_detects_single_digit_error_witness :
  isValidCardNumber (lit "4111 1111 1111 111" ++ digit_char 7 :: lit "") = false.
Proof.
  apply (isValidCardNumber_detects_single_digit_error
           (lit "4111 1111 1111 111") (lit "") 1 7).
  - lia.
  - lia.
  - discriminate.
  - reflexivity.
Defined.

(* ====================================================================== *)
(** * Generated numbers and their type *)
(* ====================================================================== *)

Lemma prefix_decides_type (t prefix rest : jstring) :
  In t card_types -> In prefix (card_prefixes_of t) ->
  getCardType (prefix ++ rest) = Some t.
Proof.
  unfold card_types; simpl In.
  intros [<-|[<-|[<-|[<-|[]]]]]; vm_compute card_prefixes_of; simpl In;
    intros H; repeat (destruct H as [<-|H]; [vm_compute; reflexivity|]);
    destruct H.
Qed.

(** A number generated for one of the four card types is classified by
    [getCardType] as that type. *)
Theorem getCardType_of_generated_number
    (t : jstring) (valid : option bool) (w : World) :
  In t card_types ->
  exists s w',
    generateCardNumber (mkCardOptions (Some t) valid) w = (Ok s, w')
    /\ getCardType s = Some t.
Proof.
  intros Ht.
  destruct (known_type_tables t Ht) as (Hne & Hall & _).
  destruct (generateCardNumber_ok (mkCardOptions (Some t) valid) w Hne Hall)
    as (s & w' & Hs & _ & _ & (prefix & rest & Hin & ->) & _).
  exists (prefix ++ rest), w'; split; [exact Hs|].
  apply prefix_decides_type; assumption.
Qed.

Lemma getCardType_of_generated_number_witness :
  exists s w',
    generateCardNumber (mkCardOptions (Some (lit "discover")) (Some false))
                       (mkWorld (fun n => 5 * n + 1) 0 2026) = (Ok s, w')
    /\ getCardType s = Some (lit "discover").
Proof.
  apply (getCardType_of_generated_number (lit "discover") (Some false)).
  unfold card_types; simpl; tauto.
Defined.

(* ====================================================================== *)
(** * Formatting and masking card numbers *)
(* ====================================================================== *)

Lemma digit_not_ws (c : ascii) : is_digit c = true -> is_ws c = false.
Proof.
  intros H; destruct (is_digit_char c H) as (d & Hd & ->). digit_cases d.
Qed.

Lemma trim_visible_ends (s : jstring) :
  (exists c y, s = c :: y /\ is_ws c = false) ->
  (exists y c, s = y ++ [c] /\ is_ws c = false) ->
  trim s = s.
Proof.
  intros (c & y & -> & Hc) (y' & c' & E & Hc'); unfold trim.
  cbn [drop_ws]; rewrite Hc. rewrite E, rev_app_distr; cbn [rev app drop_ws].
  rewrite Hc'. change (c' :: rev y') with ([c'] ++ rev y').
  rewrite rev_app_distr, rev_involutive; reflexivity.
Qed.

Lemma replace_groups_of_four_five (a b c d e : ascii) (rest : jstring) :
  replace_groups_of_four (a :: b :: c :: d :: e :: rest)
  = if is_digit a && is_digit b && is_digit c && is_digit d && is_digit e
    then a :: b :: c :: d :: space :: replace_groups_of_four (e :: rest)
    else a :: replace_groups_of_four (b :: c :: d :: e :: rest).
Proof. reflexivity. Qed.

Lemma chunks4_nonempty (s : jstring) : exists p ps, chunks4 s = p :: ps.
Proof.
  destruct s as [|a [|b [|c [|d [|e rest]]]]]; simpl; eauto.
Qed.

(** On digits the pattern of four digits followed by a digit cuts the
    string into pieces of four, joined by one space; the text starts with
    the first digit and ends with the last. *)
Lemma replace_groups_of_four_digits (n : nat) :
  forall s,
    length s <= n -> all_digits s ->
    replace_groups_of_four s = join [space] (chunks4 s)
    /\ (s <> [] ->
        (exists c y, join [space] (chunks4 s) = c :: y /\ is_ws c = false)
        /\ (exists y c, join [space] (chunks4 s) = y ++ [c] /\ is_ws c = false)).
Proof.
  induction n as [|n IH]; intros s Hlen Hd.
  - destruct s; [|simpl in Hlen; lia]. split; [reflexivity | congruence].
  - destruct s as [|a s]; [split; [reflexivity | congruence]|].
    destruct s as [|b [|c [|d [|e rest]]]];
      try (split; [reflexivity|]; intros _).
    + inversion Hd as [|? ? Ha _]; subst.
      split; [exists a, []|exists [], a]; (split; [reflexivity | apply digit_not_ws; exact Ha]).
    + inversion Hd as [|? ? Ha Hd1]; subst. inversion Hd1 as [|? ? Hb _]; subst.
      split; [exists a, [b]|exists [a], b]; (split; [reflexivity | apply digit_not_ws; assumption]).
    + inversion Hd as [|? ? Ha Hd1]; subst. inversion Hd1 as [|? ? Hb Hd2]; subst.
      inversion Hd2 as [|? ? Hc _]; subst.
      split; [exists a, [b; c]|exists [a; b], c]; (split; [reflexivity | apply digit_not_ws; assumption]).
    + inversion Hd as [|? ? Ha Hd1]; subst. inversion Hd1 as [|? ? Hb Hd2]; subst.
      inversion Hd2 as [|? ? Hc Hd3]; subst. inversion Hd3 as [|? ? Hd4 _]; subst.
      split; [exists a, [b; c; d]|exists [a; b; c], d]; (split; [reflexivity | apply digit_not_ws; assumption]).
    + inversion Hd as [|? ? Ha Hd1]; subst. inversion Hd1 as [|? ? Hb Hd2]; subst.
      inversion Hd2 as [|? ? Hc Hd3]; subst. inversion Hd3 as [|? ? Hd4 Hd5]; subst.
      inversion Hd5 as [|? ? He _]; subst.
      destruct (IH (e :: rest)) as [Hr Hends]; [simpl in *; lia | exact Hd5 |].
      destruct (Hends ltac:(discriminate)) as [_ (y & z & Hy & Hz)].
      destruct (chunks4_nonempty (e :: rest)) as (p & ps & Hp).
      assert (Hj : join [space] (chunks4 (a :: b :: c :: d :: e :: rest))
                   = a :: b :: c :: d :: space :: join [space] (chunks4 (e :: rest))).
      { change (chunks4 (a :: b :: c :: d :: e :: rest))
          with ([a; b; c; d] :: chunks4 (e :: rest)).
        rewrite Hp; reflexivity. }
      split.
      * rewrite replace_groups_of_four_five, Ha, Hb, Hc, Hd4, He, Hr, Hj.
        reflexivity.
      * intros _; rewrite Hj; split.
        -- exists a; eexists; split; [reflexivity | apply digit_not_ws; exact Ha].
        -- exists (a :: b :: c :: d :: space :: y), z.
           rewrite Hy; split; [reflexivity | exact Hz].
Qed.

Lemma replace_amex_groups_short (s : jstring) :
  length s < 15 -> replace_amex_groups s = s.
Proof.
  induction s as [|c s IH]; intros H; [reflexivity|].
  cbn [replace_amex_groups].
  destruct (Nat.leb_spec 15 (length (c :: s))); [lia|].
  cbn [andb]. rewrite IH by (simpl in H; lia). reflexivity.
Qed.

Lemma replace_amex_groups_digits (s : jstring) :
  all_digits s ->
  replace_amex_groups s = if 15 <=? length s then amex_groups s else s.
Proof.
  intros Hd. destruct (Nat.leb_spec 15 (length s)) as [H|H].
  - destruct s as [|c s]; [simpl in H; lia|].
    cbn [replace_amex_groups].
    destruct (Nat.leb_spec 15 (length (c :: s))); [|lia].
    assert (Hf : forallb is_digit (firstn 15 (c :: s)) = true).
    { apply forallb_forall; intros x Hx.
      apply (proj1 (Forall_forall _ _) Hd).
      rewrite <- (firstn_skipn 15 (c :: s)).
      apply in_or_app; left; exact Hx. }
    rewrite Hf; reflexivity.
  - apply replace_amex_groups_short; exact H.
Qed.

(** What [formatCardNumber] returns, on the digits of its argument. *)
Lemma formatCardNumber_digits (number : jstring) (type : option jstring) :
  formatCardNumber number type
  = let digits := strip_non_digits number in
    if str_eqb (resolved_card_type digits type) (lit "amex")
    then (if 15 <=? length digits then amex_groups digits else digits)
    else join [space] (chunks4 digits).
Proof.
  unfold formatCardNumber; cbv zeta.
  fold (resolved_card_type (strip_non_digits number) type).
  destruct (str_eqb (resolved_card_type (strip_non_digits number) type) (lit "amex")).
  - apply replace_amex_groups_digits, strip_digits_all.
  - destruct (replace_groups_of_four_digits (length (strip_non_digits number))
                (strip_non_digits number) (le_n _) (strip_digits_all number))
      as [Hr Hends].
    rewrite Hr. destruct (strip_non_digits number) as [|c ds] eqn:E; [reflexivity|].
    destruct (Hends ltac:(discriminate)) as [H1 H2].
    apply trim_visible_ends; assumption.
Qed.

Lemma join_chunks4_five (a b c d e : ascii) (rest : jstring) :
  join [space] (chunks4 (a :: b :: c :: d :: e :: rest))
  = a :: b :: c :: d :: space :: join [space] (chunks4 (e :: rest)).
Proof.
  change (chunks4 (a :: b :: c :: d :: e :: rest))
    with ([a; b; c; d] :: chunks4 (e :: rest)).
  destruct (chunks4_nonempty (e :: rest)) as (p & ps & ->); reflexivity.
Qed.

(** The pieces joined by spaces hold the digits and nothing but spaces
    besides. *)
Lemma join_chunks4_digits (n : nat) :
  forall s,
    length s <= n -> all_digits s ->
    filter is_digit (join [space] (chunks4 s)) = s
    /\ (forall x, In x (join [space] (chunks4 s)) -> In x s \/ x = space).
Proof.
  induction n as [|n IH]; intros s Hlen Hd.
  - destruct s; [|simpl in Hlen; lia]. split; [reflexivity | intros x []].
  - destruct s as [|a [|b [|c [|d [|e rest]]]]];
      try (split; [apply (strip_digits_id _ Hd) | intros x Hx; left; exact Hx]).
    inversion Hd as [|? ? Ha Hd1]; subst. inversion Hd1 as [|? ? Hb Hd2]; subst.
    inversion Hd2 as [|? ? Hc Hd3]; subst. inversion Hd3 as [|? ? Hd4 Hd5]; subst.
    destruct (IH (e :: rest)) as [Hf Hin]; [simpl in *; lia | exact Hd5 |].
    rewrite join_chunks4_five. split.
    + cbn [filter]. rewrite Ha, Hb, Hc, Hd4.
      change (is_digit space) with false; cbv iota.
      cbn [filter] in Hf. rewrite Hf; reflexivity.
    + intros x [<-|[<-|[<-|[<-|[<-|Hx]]]]];
        try (left; simpl; tauto); try (right; reflexivity).
      destruct (Hin x Hx) as [H|H]; [left; simpl in *; tauto | right; exact H].
Qed.

Lemma amex_groups_digits (s : jstring) :
  filter is_digit (amex_groups s) = filter is_digit s
  /\ (forall x, In x (amex_groups s) -> In x s \/ x = space).
Proof.
  unfold amex_groups.
  assert (E : s = firstn 4 s ++ firstn 6 (skipn 4 s) ++ firstn 5 (skipn 10 s)
                  ++ skipn 15 s).
  { rewrite <- (firstn_skipn 4 s) at 1. f_equal.
    rewrite <- (firstn_skipn 6 (skipn 4 s)) at 1. f_equal.
    rewrite skipn_skipn; simpl Nat.add.
    rewrite <- (firstn_skipn 5 (skipn 10 s)) at 1. f_equal.
    rewrite skipn_skipn; reflexivity. }
  split.
  - rewrite E at 5. rewrite !filter_app. reflexivity.
  - intros x Hx. rewrite E. rewrite !in_app_iff.
    apply in_app_or in Hx as [Hx|Hx]; [left; left; exact Hx|].
    cbn [app] in Hx. destruct Hx as [<-|Hx]; [right; reflexivity|].
    apply in_app_or in Hx as [Hx|Hx]; [left; right; left; exact Hx|].
    cbn [app] in Hx. destruct Hx as [<-|Hx]; [right; reflexivity|].
    apply in_app_or in Hx as [Hx|Hx];
      [left; right; right; left | left; right; right; right]; exact Hx.
Qed.

Lemma strip_formatCardNumber (number : jstring) (type : option jstring) :
  strip_non_digits (formatCardNumber number type) = strip_non_digits number
  /\ (forall x, In x (formatCardNumber number type) ->
                is_digit x = true \/ x = space).
Proof.
  rewrite formatCardNumber_digits; cbv zeta.
  pose proof (strip_digits_all number) as Hd.
  set (digits := strip_non_digits number) in *.
  assert (Hin : forall x, In x digits \/ x = space -> is_digit x = true \/ x = space).
  { intros x [H|H]; [left; apply (proj1 (Forall_forall _ _) Hd x H) | right; exact H]. }
  destruct (str_eqb (resolved_card_type digits type) (lit "amex")).
  - destruct (15 <=? length digits).
    + destruct (amex_groups_digits digits) as [H1 H2]. split.
      * unfold strip_non_digits at 1; rewrite H1. apply strip_digits_id; exact Hd.
      * intros x Hx; apply Hin, H2, Hx.
    + split; [apply strip_digits_id; exact Hd | intros x Hx; apply Hin; left; exact Hx].
  - destruct (join_chunks4_digits (length digits) digits (le_n _) Hd) as [H1 H2].
    split; [exact H1 | intros x Hx; apply Hin, H2, Hx].
Qed.

Lemma formatCardNumber_of_digits (number : jstring) (type : option jstring) :
  formatCardNumber (strip_non_digits number) type = formatCardNumber number type.
Proof.
  rewrite !formatCardNumber_digits.
  rewrite (strip_digits_id _ (strip_digits_all number)); reflexivity.
Qed.

(** [formatCardNumber] only regroups: the digits of its result are the
    digits of its argument, so validation and classification give the same
    answer before and after formatting, and formatting twice changes
    nothing more. *)
Theorem formatCardNumber_keeps_digits (number : jstring) (type : option jstring) :
  strip_non_digits (formatCardNumber number type) = strip_non_digits number
  /\ isValidCardNumber (formatCardNumber number type) = isValidCardNumber number
  /\ getCardType (formatCardNumber number type) = getCardType number
  /\ formatCardNumber (formatCardNumber number type) type
     = formatCardNumber number type.
Proof.
  destruct (strip_formatCardNumber number type) as [Hs _].
  split; [exact Hs|]. split; [|split].
  - unfold isValidCardNumber; rewrite Hs; reflexivity.
  - unfold getCardType; rewrite Hs; reflexivity.
  - rewrite (formatCardNumber_digits (formatCardNumber number type)), Hs.
    symmetry; apply formatCardNumber_digits.
Qed.

(** The shape of the result of [formatCardNumber] on the digits of its
    argument. With a type other than amex they are cut into groups of
    four joined by single spaces, sixteen digits giving four groups. With
    the type amex the first fifteen are grouped 4-6-5 and the rest follows,
    and fewer than fifteen digits are returned without any grouping. *)
Theorem formatCardNumber_groups (number : jstring) (type : option jstring) :
  let digits := strip_non_digits number in
  let cardType := resolved_card_type digits type in
  (cardType <> lit "amex" ->
   formatCardNumber number type = join [space] (chunks4 digits))
  /\ (cardType <> lit "amex" -> length digits = 16 ->
      formatCardNumber number type
      = firstn 4 digits ++ [space] ++ firstn 4 (skipn 4 digits) ++ [space]
        ++ firstn 4 (skipn 8 digits) ++ [space] ++ skipn 12 digits)
  /\ (cardType = lit "amex" -> 15 <= length digits ->
      formatCardNumber number type
      = firstn 4 digits ++ [space] ++ firstn 6 (skipn 4 digits) ++ [space]
        ++ firstn 5 (skipn 10 digits) ++ skipn 15 digits)
  /\ (cardType = lit "amex" -> length digits < 15 ->
      formatCardNumber number type = digits).
Proof.
  intros digits cardType.
  pose proof (formatCardNumber_digits number type) as H; cbv zeta in H.
  fold digits in H; fold cardType in H.
  assert (Hgroups : cardType <> lit "amex" ->
                    formatCardNumber number type = join [space] (chunks4 digits)).
  { intros Hne; rewrite H, (str_eqb_neq _ _ Hne); reflexivity. }
  split; [exact Hgroups|]. split; [|split].
  - intros Hne Hlen; rewrite (Hgroups Hne).
    do 16 (destruct digits as [|? digits]; [discriminate Hlen|]).
    destruct digits; [reflexivity | discriminate Hlen].
  - intros He Hlen; rewrite H, He, str_eqb_refl.
    destruct (Nat.leb_spec 15 (length digits)); [reflexivity | lia].
  - intros He Hlen; rewrite H, He, str_eqb_refl.
    destruct (Nat.leb_spec 15 (length digits)); [lia | reflexivity].
Qed.

Lemma strip_repeat_star (k : nat) : strip_non_digits (repeat star k) = [].
Proof. induction k as [|k IH]; [reflexivity | exact IH]. Qed.

Lemma skipn_all_digits (k : nat) (s : jstring) :
  all_digits s -> all_digits (skipn k s).
Proof.
  intros H; apply Forall_forall; intros x Hx.
  apply (proj1 (Forall_forall _ _) H).
  rewrite <- (firstn_skipn k s); apply in_or_app; right; exact Hx.
Qed.

(** Whenever [maskCardNumber] returns, its result is [formatCardNumber]
    of the visible digits alone: the mask characters are dropped with the
    other non-digits, so the result holds digits and spaces only and never
    an asterisk. With [visibleDigits] at 0 every digit is shown. *)
Theorem maskCardNumber_shows_no_mask
    (number : jstring) (visibleDigits : Z) (s : jstring) :
  maskCardNumber number visibleDigits = Ok s ->
  s = formatCardNumber
        (slice_from (strip_non_digits number) (- visibleDigits)) None
  /\ ~ In star s
  /\ Forall (fun c => is_digit c = true \/ c = space) s
  /\ (visibleDigits = 0%Z -> s = formatCardNumber number None).
Proof.
  unfold maskCardNumber, repeat_char.
  destruct (Z.ltb (Z.of_nat (length (strip_non_digits number)) - visibleDigits) 0);
    [discriminate|].
  intros H; injection H as <-.
  set (digits := strip_non_digits number).
  set (k := Z.to_nat (Z.of_nat (length digits) - visibleDigits)).
  assert (Hvis : all_digits (slice_from digits (- visibleDigits)))
    by (apply skipn_all_digits, strip_digits_all).
  assert (E : formatCardNumber (repeat star k ++ slice_from digits (- visibleDigits)) None
              = formatCardNumber (slice_from digits (- visibleDigits)) None).
  { rewrite <- formatCardNumber_of_digits.
    unfold strip_non_digits at 1; rewrite filter_app.
    fold (strip_non_digits (repeat star k)); rewrite strip_repeat_star.
    cbn [app]. fold (strip_non_digits (slice_from digits (- visibleDigits))).
    rewrite (strip_digits_id _ Hvis); reflexivity. }
  rewrite E.
  destruct (strip_formatCardNumber (slice_from digits (- visibleDigits)) None)
    as [_ Hchars].
  split; [reflexivity|]. split; [|split].
  - intros Hstar; destruct (Hchars star Hstar) as [H|H]; discriminate H.
  - apply Forall_forall; exact Hchars.
  - intros ->. unfold slice_from. change (- 0 <? 0)%Z with false; cbv iota.
    rewrite Z.min_l by lia. cbn [Z.to_nat skipn].
    apply formatCardNumber_of_digits.
Qed.

Lemma maskCardNumber_shows_no_mask_witness :
  lit "1111"
  = formatCardNumber
      (slice_from (strip_non_digits (lit "4111-1111-1111-1111")) (- 4)) None
  /\ ~ In star (lit "1111")
  /\ Forall (fun c => is_digit c = true \/ c = space) (lit "1111")
  /\ (4%Z = 0%Z -> lit "1111" = formatCardNumber (lit "4111-1111-1111-1111") None).
Proof.
  apply (maskCardNumber_shows_no_mask (lit "4111-1111-1111-1111") 4 (lit "1111")).
  reflexivity.
Defined.

(* ====================================================================== *)
(** * Expiry dates, security codes and whole cards *)
(* ====================================================================== *)

Lemma pad2_two_digits (n : Z) :
  (0 <= n < 100)%Z -> length (pad2 n) = 2 /\ all_digits (pad2 n).
Proof.
  intros Hn.
  assert (Hall : forallb (fun k => (length (pad2 (Z.of_nat k)) =? 2)
                                   && forallb is_digit (pad2 (Z.of_nat k)))
                         (seq 0 100) = true) by (vm_compute; reflexivity).
  pose proof (proj1 (forallb_forall _ _) Hall (Z.to_nat n)) as H.
  cbv beta in H. rewrite Z2Nat.id in H by lia.
  destruct (andb_prop _ _ (H ltac:(apply in_seq; lia))) as [H1 H2].
  split; [apply Nat.eqb_eq; exact H1|].
  apply Forall_forall; apply (proj1 (forallb_forall _ _) H2).
Qed.

Lemma keeps_year_ret {A} (a : A) : keeps_year (ret a).
Proof. intros w r w' H; injection H as _ <-; reflexivity. Qed.

Lemma keeps_year_throw {A} (e : exn) : keeps_year (@throw A e).
Proof. intros w r w' H; injection H as _ <-; reflexivity. Qed.

Lemma keeps_year_bind {A B} (m : M A) (k : A -> M B) :
  keeps_year m -> (forall a, keeps_year (k a)) -> keeps_year (bind m k).
Proof.
  intros Hm Hk w r w' H; unfold bind in H.
  destruct (m w) as [[a|e] w1] eqn:E.
  - rewrite (Hk a w1 r w' H). apply (Hm w _ w1 E).
  - injection H as _ <-. apply (Hm w _ w1 E).
Qed.

Lemma keeps_year_randomInt (min max : Z) : keeps_year (randomInt min max).
Proof.
  unfold randomInt. destruct (max <? min)%Z; [apply keeps_year_throw|].
  apply keeps_year_bind; [|intros a; apply keeps_year_ret].
  intros w r w' H; injection H as _ <-; reflexivity.
Qed.

Lemma keeps_year_randomElement {T} (dflt : T) (array : list T) :
  keeps_year (randomElement dflt array).
Proof.
  unfold randomElement. destruct (length array =? 0); [apply keeps_year_throw|].
  apply keeps_year_bind; [apply keeps_year_randomInt | intros a; apply keeps_year_ret].
Qed.

Lemma keeps_year_append_random_digits (n : nat) :
  forall number, keeps_year (append_random_digits n number).
Proof.
  induction n as [|n IH]; intros number; cbn [append_random_digits].
  - apply keeps_year_ret.
  - apply keeps_year_bind; [apply keeps_year_randomInt | intros d; apply IH].
Qed.

Lemma keeps_year_generateCardNumber (options : CardOptions) :
  keeps_year (generateCardNumber options).
Proof.
  unfold generateCardNumber.
  apply keeps_year_bind; [apply keeps_year_randomElement|]; intros prefix.
  apply keeps_year_bind; [apply keeps_year_append_random_digits|]; intros number.
  destruct (match opt_valid options with Some v => v | None => true end).
  - apply keeps_year_ret.
  - apply keeps_year_bind; [apply keeps_year_randomInt | intros d; apply keeps_year_ret].
Qed.

Lemma generateExpiry_shape (yearsAhead : Z) (w : World) :
  (1 <= yearsAhead)%Z -> (0 <= now_year w)%Z ->
  exists month r,
    (1 <= month <= 12)%Z /\ (1 <= r <= yearsAhead)%Z
    /\ generateExpiry yearsAhead w
       = (Ok (pad2 month ++ lit "/" ++ pad2 ((now_year w + r) mod 100)),
          advance (advance w)).
Proof.
  intros Hy Hnow; unfold generateExpiry, getFullYear.
  unfold bind at 1.
  destruct (randomInt_ok 1 yearsAhead w Hy) as (r & Hr & Hrb).
  unfold bind at 1; rewrite Hr.
  destruct (randomInt_ok 1 12 (advance w) ltac:(lia)) as (m & Hm & Hmb).
  unfold bind at 1; rewrite Hm. unfold ret.
  exists m, r; split; [exact Hmb|]; split; [exact Hrb|].
  rewrite Z.rem_mod_nonneg by lia. reflexivity.
Qed.

(** With [yearsAhead] at least 1, and a current year that is not
    negative, [generateExpiry] returns five characters: a month from 01 to
    12, a slash, and the last two digits of a year that is 1 to
    [yearsAhead] after the current one. With [yearsAhead] below 1 it
    throws, since the range of years is empty. *)
Theorem generateExpiry_format (yearsAhead : Z) (w : World) :
  ((1 <= yearsAhead)%Z -> (0 <= now_year w)%Z ->
   exists month r w',
     (1 <= month <= 12)%Z /\ (1 <= r <= yearsAhead)%Z
     /\ generateExpiry yearsAhead w
        = (Ok (pad2 month ++ lit "/" ++ pad2 ((now_year w + r) mod 100)), w')
     /\ length (pad2 month ++ lit "/" ++ pad2 ((now_year w + r) mod 100)) = 5
     /\ all_digits (pad2 month)
     /\ all_digits (pad2 ((now_year w + r) mod 100)))
  /\ ((yearsAhead < 1)%Z ->
      generateExpiry yearsAhead w
      = (Throw (Error (lit "min must be less than or equal to max")), w)).
Proof.
  split.
  - intros Hy Hnow.
    destruct (generateExpiry_shape yearsAhead w Hy Hnow) as (m & r & Hm & Hr & He).
    destruct (pad2_two_digits m ltac:(lia)) as [Hl1 Hd1].
    destruct (pad2_two_digits ((now_year w + r) mod 100)
                ltac:(apply Z.mod_pos_bound; lia)) as [Hl2 Hd2].
    exists m, r, (advance (advance w)).
    repeat split; try assumption; try lia.
    rewrite !length_app, Hl1, Hl2; reflexivity.
  - intros Hy; unfold generateExpiry, getFullYear, randomInt.
    unfold bind at 1. destruct (Z.ltb_spec yearsAhead 1); [reflexivity | lia].
Qed.

Lemma split_on_no_separator (sep : ascii) (s : jstring) :
  ~ In sep s -> split_on sep s = [s].
Proof.
  induction s as [|c s IH]; intros H; [reflexivity|].
  cbn [split_on]. destruct (Ascii.eqb_spec c sep) as [->|_];
    [exfalso; apply H; left; reflexivity|].
  rewrite IH by (intros Hin; apply H; right; exact Hin). reflexivity.
Qed.

Lemma split_on_first (sep : ascii) (a b : jstring) :
  ~ In sep a -> split_on sep (a ++ sep :: b) = a :: split_on sep b.
Proof.
  induction a as [|c a IH]; intros H; simpl app.
  - cbn [split_on]. rewrite Ascii.eqb_refl; reflexivity.
  - cbn [split_on]. destruct (Ascii.eqb_spec c sep) as [->|_];
      [exfalso; apply H; left; reflexivity|].
    rewrite IH by (intros Hin; apply H; right; exact Hin). reflexivity.
Qed.

(** [generateExpiryComponents] returns the two halves of the text that
    [generateExpiry] returns for the same draws: month and year, each of
    two digits, with [month/year] the expiry. *)
Theorem generateExpiryComponents_halves (yearsAhead : Z) (w : World) :
  (1 <= yearsAhead)%Z -> (0 <= now_year w)%Z ->
  exists month year w',
    generateExpiryComponents yearsAhead w = (Ok (month, year), w')
    /\ generateExpiry yearsAhead w = (Ok (month ++ lit "/" ++ year), w')
    /\ length month = 2 /\ all_digits month
    /\ length year = 2 /\ all_digits year.
Proof.
  intros Hy Hnow.
  destruct (generateExpiry_shape yearsAhead w Hy Hnow) as (m & r & Hm & Hr & He).
  destruct (pad2_two_digits m ltac:(lia)) as [Hl1 Hd1].
  destruct (pad2_two_digits ((now_year w + r) mod 100)
              ltac:(apply Z.mod_pos_bound; lia)) as [Hl2 Hd2].
  assert (Hslash : forall s, all_digits s -> ~ In (ascii_of_nat 47) s).
  { intros s Hs Hin. pose proof (proj1 (Forall_forall _ _) Hs _ Hin) as H.
    discriminate H. }
  exists (pad2 m), (pad2 ((now_year w + r) mod 100)), (advance (advance w)).
  split; [|repeat split; assumption].
  unfold generateExpiryComponents, bind; rewrite He; unfold ret.
  change (lit "/" ++ ?x) with (ascii_of_nat 47 :: x).
  rewrite split_on_first by (apply Hslash; exact Hd1).
  rewrite split_on_no_separator by (apply Hslash; exact Hd2).
  reflexivity.
Qed.

Lemma generateExpiryComponents_halves_witness :
  exists month year w',
    generateExpiryComponents 3 (mkWorld (fun n => 7 * n + 3) 0 2026)
    = (Ok (month, year), w')
    /\ generateExpiry 3 (mkWorld (fun n => 7 * n + 3) 0 2026)
       = (Ok (month ++ lit "/" ++ year), w')
    /\ length month = 2 /\ all_digits month
    /\ length year = 2 /\ all_digits year.
Proof.
  apply (generateExpiryComponents_halves 3 (mkWorld (fun n => 7 * n + 3) 0 2026));
    cbn [now_year]; lia.
Defined.

(** [generateCVC] returns as many digits as asked for, and none for a
    length that is not positive. *)
Theorem generateCVC_length (length_ : Z) (w : World) :
  exists s w',
    generateCVC length_ w = (Ok s, w')
    /\ all_digits s /\ Z.of_nat (length s) = Z.max 0 length_.
Proof.
  destruct (append_random_digits_ok (Z.to_nat length_) [] w)
    as (s & w' & Hs & Hl & Hd & _).
  exists s, w'; split; [exact Hs|]; split; [exact Hd | lia].
Qed.

(** For each of the four card types [generateCard] returns a card of
    that type: the number is classified as the type and passes validation
    unless [valid] is false, the security code has 4 digits for amex and 3
    for the others, and the expiry has the five characters of MM/YY. *)
Theorem generateCard_consistent (t : jstring) (valid : option bool) (w : World) :
  In t card_types -> (0 <= now_year w)%Z ->
  exists info w',
    generateCard (mkCardOptions (Some t) valid) w = (Ok info, w')
    /\ type info = t
    /\ getCardType (number info) = Some t
    /\ (valid <> Some false -> isValidCardNumber (number info) = true)
    /\ all_digits (cvc info)
    /\ length (cvc info) = (if str_eqb t (lit "amex") then 4 else 3)
    /\ length (expiry info) = 5.
Proof.
  intros Ht Hnow.
  destruct (known_type_tables t Ht) as (Hne & Hall & Hlen).
  destruct (generateCardNumber_ok (mkCardOptions (Some t) valid) w Hne Hall)
    as (s & w1 & Hs & Hd & Hl & (prefix & rest & Hin & Hpre) & Hv).
  cbn [opt_type opt_valid] in Hl, Hv, Hin.
  pose proof (keeps_year_generateCardNumber _ w _ w1 Hs) as Hyear.
  destruct (generateExpiry_shape 3 w1 ltac:(lia) ltac:(lia))
    as (m & r & Hm & Hr & Hexp).
  destruct (pad2_two_digits m ltac:(lia)) as [Hl1 _].
  destruct (pad2_two_digits ((now_year w1 + r) mod 100)
              ltac:(apply Z.mod_pos_bound; lia)) as [Hl2 _].
  assert (Hel : length (pad2 m ++ lit "/" ++ pad2 ((now_year w1 + r) mod 100)) = 5)
    by (rewrite !length_app, Hl1, Hl2; reflexivity).
  set (w2 := advance (advance w1)) in *.
  assert (Hcvc : number_or (table_get CVC_LENGTHS t) 3
                 = (if str_eqb t (lit "amex") then 4 else 3)%Z).
  { unfold card_types in Ht; simpl In in Ht.
    destruct Ht as [<-|[<-|[<-|[<-|[]]]]]; reflexivity. }
  assert (Htype : match opt_type (mkCardOptions (Some t) valid) with
                  | Some ((_ :: _) as t0) => t0
                  | _ => lit "visa"
                  end = t).
  { unfold card_types in Ht; simpl In in Ht.
    destruct Ht as [<-|[<-|[<-|[<-|[]]]]]; reflexivity. }
  destruct (append_random_digits_ok
              (Z.to_nat (if str_eqb t (lit "amex") then 4 else 3)%Z) [] w2)
    as (c & w3 & Hc & Hcl & Hcd & _).
  unfold generateCard. rewrite Htype, Hcvc.
  unfold bind at 1; rewrite Hs.
  unfold bind at 1; rewrite Hexp.
  unfold bind at 1, generateCVC; rewrite Hc; unfold ret.
  eexists; eexists; split; [reflexivity|]. cbn [type number cvc expiry].
  split; [reflexivity|]. split; [|split; [|split; [|split]]].
  - rewrite Hpre; apply prefix_decides_type; assumption.
  - intros Hvalid. unfold isValidCardNumber; rewrite (strip_digits_id _ Hd).
    assert (Hluhn : luhnCheck s = true)
      by (apply Hv; destruct valid as [[|]|]; [reflexivity | congruence | reflexivity]).
    rewrite Hlen in Hl.
    destruct (str_eqb t (lit "amex"));
      [replace (length s) with 15 by lia | replace (length s) with 16 by lia];
      exact Hluhn.
  - exact Hcd.
  - cbn [app]; rewrite Hcl; destruct (str_eqb t (lit "amex")); reflexivity.
  - exact Hel.
Qed.

Lemma generateCard_consistent_witness :
  exists info w',
    generateCard (mkCardOptions (Some (lit "amex")) None)
                 (mkWorld (fun n => 7 * n + 3) 0 2026) = (Ok info, w')
    /\ type info = lit "amex"
    /\ getCardType (number info) = Some (lit "amex")
    /\ (None <> Some false -> isValidCardNumber (number info) = true)
    /\ all_digits (cvc info)
    /\ length (cvc info) = (if str_eqb (lit "amex") (lit "amex") then 4 else 3)
    /\ length (expiry info) = 5.
Proof.
  apply (generateCard_consistent (lit "amex") None).
  - unfold card_types; simpl; tauto.
  - cbn [now_year]; lia.
Defined.


(* ====================================================================== *)
(** * src/file/csv.ts: counting rows, columns and headers *)
(* ====================================================================== *)

Lemma filter_true {A} (l : list A) : filter (fun _ => true) l = l.
Proof. induction l as [|x l IH]; simpl; [|rewrite IH]; reflexivity. Qed.

(** [countCSVRows] gives the number of rows that [readCSV] returns for the
    same file and options, and fails when the read fails. *)
Theorem countCSVRows_counts_parsed_rows
    (fs : FileSystem) (filePath : jstring) (options : CSVOptions) :
  match readCSV fs filePath options with
  | Ok rows => countCSVRows fs filePath options = Ok (Z.of_nat (length rows))
  | Throw e => countCSVRows fs filePath options = Throw e
  end.
Proof.
  unfold readCSV, countCSVRows.
  destruct (fs filePath) as [content|e]; [|reflexivity].
  rewrite parseCSV_eq, length_map. unfold csv_dataLines, filteredLines.
  destruct (opt_skipEmptyLines options).
  - destruct (opt_hasHeaders options); [|reflexivity].
    destruct (filter _ (split_lines content)) as [|l ls]; [reflexivity|].
    f_equal; cbn [skipn length]; lia.
  - rewrite filter_true.
    destruct (opt_hasHeaders options); [|reflexivity].
    destruct (split_lines content) as [|l ls]; [reflexivity|].
    f_equal; cbn [skipn length]; lia.
Qed.





Lemma drop_ws_fixed (s : jstring) :
  match s with c :: _ => is_ws c = false | [] => True end -> drop_ws s = s.
Proof. destruct s as [|c s]; [reflexivity|]; simpl; intros ->; reflexivity. Qed.

Lemma drop_ws_suffix (s : jstring) :
  exists w, s = w ++ drop_ws s
            /\ match drop_ws s with c :: _ => is_ws c = false | [] => True end.
Proof.
  induction s as [|c s (w & Hw & Hh)]; simpl.
  - exists []; split; [reflexivity | exact I].
  - destruct (is_ws c) eqn:E.
    + exists (c :: w); split; [simpl; f_equal; exact Hw | exact Hh].
    + exists []; split; [reflexivity | exact E].
Qed.

Lemma trim_idempotent (s : jstring) : trim (trim s) = trim s.
Proof.
  unfold trim.
  destruct (drop_ws_suffix s) as (w1 & _ & Ha).
  set (a := drop_ws s) in *.
  destruct (drop_ws_suffix (rev a)) as (w2 & Hw2 & Hb).
  set (b := drop_ws (rev a)) in *.
  assert (Hhead : match rev b with c :: _ => is_ws c = false | [] => True end).
  { assert (E : a = rev b ++ rev w2)
      by (rewrite <- rev_app_distr, <- Hw2, rev_involutive; reflexivity).
    destruct (rev b) as [|c rb]; [exact I|].
    rewrite E in Ha; exact Ha. }
  rewrite (drop_ws_fixed _ Hhead), rev_involutive, (drop_ws_fixed _ Hb).
  reflexivity.
Qed.

Lemma parseLine_loop_trimmed (delimiter : jstring) (n : nat) :
  forall line inQuotes current result,
    length line <= n ->
    Forall (fun f => trim f = f) result ->
    Forall (fun f => trim f = f)
           (parseLine_loop delimiter line inQuotes current result).
Proof.
  assert (Hpush : forall current result,
             Forall (fun f => trim f = f) result ->
             Forall (fun f => trim f = f) (result ++ [trim current])).
  { intros current result H; apply Forall_app; split; [exact H|].
    constructor; [apply trim_idempotent | constructor]. }
  induction n as [|n IH]; intros line inQuotes current result Hlen Hres.
  - destruct line; [|simpl in Hlen; lia]. apply Hpush; exact Hres.
  - destruct line as [|char rest]; [apply Hpush; exact Hres|].
    cbn [parseLine_loop]. simpl in Hlen.
    destruct inQuotes.
    + destruct (Ascii.eqb char quote).
      * destruct rest as [|nextChar rest']; [apply IH; [simpl; lia | exact Hres]|].
        destruct (Ascii.eqb nextChar quote); apply IH;
          try exact Hres; simpl in *; lia.
      * apply IH; [lia | exact Hres].
    + destruct (Ascii.eqb char quote); [apply IH; [lia | exact Hres]|].
      destruct (str_eqb [char] delimiter); apply IH; try lia;
        [apply Hpush; exact Hres | exact Hres].
Qed.

Lemma row_set_cells (P : jstring -> Prop) (row : Row) (k v : jstring) :
  P v -> Forall P (map snd row) -> Forall P (map snd (row_set row k v)).
Proof.
  intros Hv; induction row as [|[k0 v0] row IH]; intros H; cbn [row_set].
  - repeat constructor; exact Hv.
  - inversion H as [|? ? H0 Hrest]; subst.
    destruct (str_eqb k0 k); constructor; auto.
Qed.

Lemma fill_row_cells (P : jstring -> Prop) (headers values : list jstring) :
  P [] -> Forall P values ->
  forall i row, Forall P (map snd row) ->
                Forall P (map snd (fill_row headers i values row)).
Proof.
  intros Hnil Hvalues; induction headers as [|h headers IH]; intros i row Hrow.
  - exact Hrow.
  - rewrite fill_row_cons. apply IH. apply row_set_cells; [|exact Hrow].
    rewrite cell_at_nth. destruct (nth_in_or_default i values []) as [H| ->].
    + apply (proj1 (Forall_forall _ _) Hvalues _ H).
    + exact Hnil.
Qed.

(** Every cell of every row of [parseCSV] is trimmed: it has no white
    space at its start or at its end. *)
Theorem parseCSV_cells_are_trimmed (content : jstring) (options : CSVOptions) :
  forall row key value,
    In row (parseCSV content options) ->
    row_get row key = Some value ->
    trim value = value.
Proof.
  intros row key value Hrow Hget.
  assert (Hcells : Forall (fun f => trim f = f) (map snd row)).
  { rewrite parseCSV_eq in Hrow. apply in_map_iff in Hrow as (line & <- & _).
    apply fill_row_cells; [reflexivity | | constructor].
    apply (parseLine_loop_trimmed _ (length line)); [lia | constructor]. }
  clear Hrow. induction row as [|[k v] row IH]; [discriminate|].
  inversion Hcells as [|? ? Hv Hrest]; subst. simpl in Hget.
  destruct (str_eqb k key); [injection Hget as <-; exact Hv | auto].
Qed.

Lemma parseCSV_cells_are_trimmed_witness :
  trim (lit "Ann") = lit "Ann".
Proof.
  apply (parseCSV_cells_are_trimmed
           (lit "name , age" ++ [LF] ++ lit "  Ann ,30") no_options
           [(lit "name", lit "Ann"); (lit "age", lit "30")] (lit "name")).
  - left; reflexivity.
  - reflexivity.
Defined.

Lemma split_lines_nonempty (s : jstring) : exists l ls, split_lines s = l :: ls.
Proof.
  induction s as [|c s (l & ls & IH)]; [exists [], []; reflexivity|].
  cbn [split_lines]. destruct (Ascii.eqb c LF); [eauto|].
  destruct (Ascii.eqb c CR).
  - destruct s as [|c' s']; [rewrite IH; eauto|].
    destruct (Ascii.eqb c' LF); [eauto | rewrite IH; eauto].
  - rewrite IH; eauto.
Qed.

(** [getCSVHeaders] parses the first line of the file, blank or not. When
    that line is not blank, or blank lines are kept, it returns the column
    names that [parseCSV] uses with a header line. *)
Theorem getCSVHeaders_agrees_with_parseCSV
    (fs : FileSystem) (filePath content : jstring) (options : CSVOptions) :
  fs filePath = Ok content ->
  opt_hasHeaders options = true ->
  (0 <? length (trim (nth 0 (split_lines content) []))) = true
  \/ opt_skipEmptyLines options = false ->
  getCSVHeaders fs filePath options = Ok (csv_headers content options).
Proof.
  intros Hread Hh Hfirst; unfold getCSVHeaders; rewrite Hread.
  unfold csv_headers, filteredLines; rewrite Hh.
  destruct (split_lines_nonempty content) as (l & ls & E); rewrite E in *.
  cbn [nth] in *.
  destruct (opt_skipEmptyLines options); [|reflexivity].
  destruct Hfirst as [Hfirst|Hfirst]; [|discriminate].
  cbn [filter]; rewrite Hfirst; reflexivity.
Qed.

Lemma getCSVHeaders_agrees_with_parseCSV_witness :
  getCSVHeaders (fun _ => Ok (lit "id,name" ++ [LF] ++ lit "1,Ann"))
                (lit "users.csv") no_options
  = Ok (csv_headers (lit "id,name" ++ [LF] ++ lit "1,Ann") no_options).
Proof.
  apply (getCSVHeaders_agrees_with_parseCSV
           (fun _ => Ok (lit "id,name" ++ [LF] ++ lit "1,Ann"))
           (lit "users.csv") (lit "id,name" ++ [LF] ++ lit "1,Ann") no_options).
  - reflexivity.
  - reflexivity.
  - left; reflexivity.
Defined.

(* ====================================================================== *)
(** * Lines, fields and line endings *)
(* ====================================================================== *)

(** Reading back one written line. For a delimiter of one character other
    than the double quote, the line made of escaped cells joined by the
    delimiter parses to the same cells, trimmed, whatever the cells hold:
    delimiters, double quotes and line breaks included. *)
Theorem parseLine_reads_written_line (d : ascii) (cells : list jstring) :
  d <> quote -> cells <> [] ->
  parseLine (join [d] (map (fun cell => escapeField cell [d]) cells)) [d]
  = map trim cells.
Proof. intros Hd Hne; apply (parseLine_csv_line d Hd cells Hne). Qed.

Lemma parseLine_reads_written_line_witness :
  parseLine
    (join [ascii_of_nat 59]
       (map (fun cell => escapeField cell [ascii_of_nat 59])
            [lit "a;b"; [quote] ++ lit "c" ++ [LF]; lit ""]))
    [ascii_of_nat 59]
  = map trim [lit "a;b"; [quote] ++ lit "c" ++ [LF]; lit ""].
Proof.
  apply (parseLine_reads_written_line (ascii_of_nat 59)
           [lit "a;b"; [quote] ++ lit "c" ++ [LF]; lit ""]);
    discriminate.
Defined.

Lemma parseLine_loop_count (delimiter : jstring) (n : nat) :
  forall line inQuotes current result,
    length line <= n ->
    length result + 1
    <= length (parseLine_loop delimiter line inQuotes current result)
    /\ (forall d,
          delimiter = [d] ->
          length (parseLine_loop delimiter line inQuotes current result)
          <= length result + 1 + count_occ ascii_dec line d)
    /\ (length delimiter <> 1 ->
        length (parseLine_loop delimiter line inQuotes current result)
        = length result + 1)
    /\ (forall d,
          delimiter = [d] -> inQuotes = false -> ~ In quote line ->
          length (parseLine_loop delimiter line inQuotes current result)
          = length result + 1 + count_occ ascii_dec line d).
Proof.
  induction n as [|n IH]; intros line inQuotes current result Hlen.
  - destruct line; [|simpl in Hlen; lia].
    cbn [parseLine_loop count_occ]; rewrite length_app; cbn [length].
    repeat split; intros; lia.
  - destruct line as [|char rest].
    { cbn [parseLine_loop count_occ]; rewrite length_app; cbn [length].
      repeat split; intros; lia. }
    simpl in Hlen. cbn [parseLine_loop].
    assert (Hocc : forall d l, count_occ ascii_dec l d
                               <= count_occ ascii_dec (char :: l) d).
    { intros d l; cbn [count_occ]; destruct (ascii_dec char d); lia. }
    destruct inQuotes.
    + destruct (Ascii.eqb char quote).
      * destruct rest as [|nextChar rest'].
        -- destruct (IH [] false current result ltac:(simpl; lia))
             as (H1 & H2 & H3 & _).
           repeat split; try assumption; try discriminate.
           intros d Hd; specialize (H2 d Hd); specialize (Hocc d []); lia.
        -- destruct (Ascii.eqb nextChar quote).
           ++ destruct (IH rest' true (current ++ [quote]) result
                          ltac:(simpl in *; lia)) as (H1 & H2 & H3 & _).
              repeat split; try assumption; try discriminate.
              intros d Hd; specialize (H2 d Hd).
              pose proof (Hocc d (nextChar :: rest')).
              assert (count_occ ascii_dec rest' d
                      <= count_occ ascii_dec (nextChar :: rest') d)
                by (cbn [count_occ]; destruct (ascii_dec nextChar d); lia).
              lia.
           ++ destruct (IH (nextChar :: rest') false current result
                          ltac:(simpl in *; lia)) as (H1 & H2 & H3 & _).
              repeat split; try assumption; try discriminate.
              intros d Hd; specialize (H2 d Hd);
                specialize (Hocc d (nextChar :: rest')); lia.
      * destruct (IH rest true (current ++ [char]) result ltac:(lia))
          as (H1 & H2 & H3 & _).
        repeat split; try assumption; try discriminate.
        intros d Hd; specialize (H2 d Hd); specialize (Hocc d rest); lia.
    + destruct (Ascii.eqb_spec char quote) as [->|Hq].
      * destruct (IH rest true current result ltac:(lia)) as (H1 & H2 & H3 & _).
        repeat split; try assumption.
        -- intros d Hd; specialize (H2 d Hd); specialize (Hocc d rest); lia.
        -- intros d _ _ Hnq; exfalso; apply Hnq; left; reflexivity.
      * destruct (str_eqb [char] delimiter) eqn:E.
        -- apply str_eqb_eq in E; subst delimiter.
           destruct (IH rest false [] (result ++ [trim current]) ltac:(lia))
             as (H1 & H2 & _ & H4).
           rewrite length_app in *; cbn [length] in *.
           repeat split; try lia.
           ++ intros d Hd; injection Hd as <-. specialize (H2 char eq_refl).
              cbn [count_occ]; destruct (ascii_dec char char); [lia | contradiction].
           ++ intros d Hd _ Hnq; injection Hd as <-.
              rewrite (H4 char eq_refl eq_refl)
                by (intros Hin; apply Hnq; right; exact Hin).
              cbn [count_occ]; destruct (ascii_dec char char); [lia | contradiction].
        -- destruct (IH rest false (current ++ [char]) result ltac:(lia))
             as (H1 & H2 & H3 & H4).
           repeat split; try assumption.
           ++ intros d Hd; specialize (H2 d Hd); specialize (Hocc d rest); lia.
           ++ intros d Hd _ Hnq. subst delimiter.
              rewrite (H4 d eq_refl eq_refl)
                by (intros Hin; apply Hnq; right; exact Hin).
              cbn [count_occ]. destruct (ascii_dec char d) as [->|_]; [|reflexivity].
              rewrite str_eqb_refl in E; discriminate.
Qed.

(** The number of fields of a line. [parseLine] always returns at least
    one field. A delimiter that is not exactly one character long never
    separates: the whole line is one field. With a delimiter of one
    character there is at most one field more than the delimiter occurs in
    the line, and exactly that many when the line has no double quote. *)
Theorem parseLine_field_count (line delimiter : jstring) :
  1 <= length (parseLine line delimiter)
  /\ (length delimiter <> 1 -> length (parseLine line delimiter) = 1)
  /\ (forall d,
        delimiter = [d] ->
        length (parseLine line delimiter) <= 1 + count_occ ascii_dec line d)
  /\ (forall d,
        delimiter = [d] -> ~ In quote line ->
        length (parseLine line delimiter) = 1 + count_occ ascii_dec line d).
Proof.
  unfold parseLine.
  destruct (parseLine_loop_count delimiter (length line) line false [] []
              (le_n _)) as (H1 & H2 & H3 & H4).
  cbn [length] in *. repeat split.
  - lia.
  - exact H3.
  - intros d Hd; specialize (H2 d Hd); lia.
  - intros d Hd Hq; specialize (H4 d Hd eq_refl Hq); lia.
Qed.

Lemma double_quotes_injective (v : jstring) :
  forall v', double_quotes v = double_quotes v' -> v = v'.
Proof.
  unfold double_quotes.
  induction v as [|c v IH]; intros [|c' v'] H; cbn [flat_map] in H.
  - reflexivity.
  - destruct (Ascii.eqb c' quote); discriminate H.
  - destruct (Ascii.eqb c quote); discriminate H.
  - destruct (Ascii.eqb_spec c quote) as [->|Hc],
             (Ascii.eqb_spec c' quote) as [->|Hc'];
      cbn [app] in H.
    + injection H as H; f_equal; apply IH; exact H.
    + injection H as Hq _; congruence.
    + injection H as Hq _; congruence.
    + injection H as -> H; f_equal; apply IH; exact H.
Qed.

(** For a given delimiter [escapeField] writes different values
    differently: from the escaped text the value can be told. *)
Theorem escapeField_injective (value value' delimiter : jstring) :
  escapeField value delimiter = escapeField value' delimiter ->
  value = value'.
Proof.
  unfold escapeField.
  destruct (includes value delimiter || includes value [quote]
            || includes value [LF] || includes value [CR]) eqn:E;
    destruct (includes value' delimiter || includes value' [quote]
              || includes value' [LF] || includes value' [CR]) eqn:E';
    cbn [app]; intros H.
  - injection H as H. apply app_inj_tail in H as [H _].
    apply double_quotes_injective; exact H.
  - exfalso. apply orb_false_iff in E' as [E' _].
    apply orb_false_iff in E' as [E' _]. apply orb_false_iff in E' as [_ E'].
    apply includes_char_false in E'. apply E'; rewrite <- H; left; reflexivity.
  - exfalso. apply orb_false_iff in E as [E _].
    apply orb_false_iff in E as [E _]. apply orb_false_iff in E as [_ E].
    apply includes_char_false in E. apply E; rewrite H; left; reflexivity.
  - exact H.
Qed.

Lemma escapeField_injective_witness :
  lit "a,b" = lit "a,b".
Proof.
  apply (escapeField_injective (lit "a,b") (lit "a,b") (lit ",")).
  reflexivity.
Defined.

Lemma split_lines_app_crlf (l rest : jstring) :
  no_line_break l ->
  split_lines (l ++ CR :: LF :: rest) = l :: split_lines rest.
Proof.
  intros [H1 H2]; induction l as [|c l IH]; simpl app.
  - reflexivity.
  - rewrite split_lines_cons, IH; simpl in *; tauto.
Qed.

Lemma split_lines_join_crlf (ls : list jstring) :
  forall l,
    Forall no_line_break (l :: ls) ->
    split_lines (join [CR; LF] (l :: ls)) = l :: ls.
Proof.
  induction ls as [|l2 ls IH]; intros l H.
  - apply split_lines_single; inversion H; assumption.
  - change (join [CR; LF] (l :: l2 :: ls))
      with (l ++ CR :: LF :: join [CR; LF] (l2 :: ls)).
    inversion H; subst.
    rewrite split_lines_app_crlf by assumption.
    rewrite IH by assumption; reflexivity.
Qed.

Lemma parseCSV_same_lines (content content' : jstring) (options : CSVOptions) :
  split_lines content = split_lines content' ->
  parseCSV content options = parseCSV content' options.
Proof.
  intros H. rewrite !parseCSV_eq.
  unfold csv_headers, csv_dataLines, filteredLines; rewrite H; reflexivity.
Qed.

(** Line endings do not matter: lines joined by carriage return and line
    feed parse to the same rows as the same lines joined by line feeds. *)
Theorem parseCSV_accepts_crlf (lines : list jstring) (options : CSVOptions) :
  Forall no_line_break lines ->
  parseCSV (join [CR; LF] lines) options = parseCSV (join [LF] lines) options.
Proof.
  intros H; apply parseCSV_same_lines.
  destruct lines as [|l ls]; [reflexivity|].
  rewrite split_lines_join_crlf, split_lines_join by exact H; reflexivity.
Qed.

Lemma parseCSV_accepts_crlf_witness :
  parseCSV (join [CR; LF] [lit "id,name"; lit "1,Ann"; lit "2,Bob"]) no_options
  = parseCSV (join [LF] [lit "id,name"; lit "1,Ann"; lit "2,Bob"]) no_options.
Proof.
  apply (parseCSV_accepts_crlf [lit "id,name"; lit "1,Ann"; lit "2,Bob"] no_options).
  repeat constructor; simpl; intuition discriminate.
Defined.

(* ====================================================================== *)
(** * Parsing without a header line, and the columns that are written *)
(* ====================================================================== *)

Lemma toString_injective (a b : Z) : toString a = toString b -> a = b.
Proof.
  unfold toString; intros H.
  apply (f_equal string_of_list_ascii) in H.
  rewrite !string_of_list_ascii_of_string in H.
  apply (f_equal NilZero.int_of_string) in H.
  assert (Hnil : forall z, Z.to_int z <> Decimal.Pos Decimal.Nil
                           /\ Z.to_int z <> Decimal.Neg Decimal.Nil).
  { intros [|p|p]; simpl; split; try discriminate;
      intros E; injection E as E;
      exact (DecimalPos.Unsigned.to_uint_nonnil p E). }
  rewrite !NilZero.isi in H by apply Hnil.
  injection H as H. apply DecimalZ.to_int_inj; exact H.
Qed.

Lemma column_names_distinct (n : nat) :
  forall start, NoDup (map column_name (seq start n)).
Proof.
  induction n as [|n IH]; intros start; cbn [seq map]; constructor.
  - intros Hin. apply in_map_iff in Hin as (j & Hj & Hseq).
    apply in_seq in Hseq. unfold column_name in Hj.
    apply app_inv_head in Hj. apply toString_injective in Hj. lia.
  - apply IH.
Qed.

(** Without a header line every line that is kept becomes a row; the keys
    of each row are [column_0], [column_1], ... up to the number of fields
    of the first kept line, and a row maps [column_j] to the j-th field of
    its own line, or to the empty string when it has none. *)
Theorem parseCSV_without_headers
    (content : jstring) (options : CSVOptions) (i : nat) (line : jstring) :
  opt_hasHeaders options = false ->
  nth_error (filteredLines content options) i = Some line ->
  length (parseCSV content options) = length (filteredLines content options)
  /\ exists row,
       nth_error (parseCSV content options) i = Some row
       /\ keys row = map column_name (seq 0 (length (keys row)))
       /\ length (keys row)
          = length (parseLine (nth 0 (filteredLines content options) [])
                              (opt_delimiter options))
       /\ forall j,
            j < length (keys row) ->
            row_get row (column_name j)
            = Some (nth j (parseLine line (opt_delimiter options)) []).
Proof.
  intros Hh Hline.
  assert (Hdata : csv_dataLines content options = filteredLines content options)
    by (unfold csv_dataLines; rewrite Hh; reflexivity).
  set (n := length (parseLine (nth 0 (filteredLines content options) [])
                              (opt_delimiter options))).
  assert (Hheaders : csv_headers content options = map column_name (seq 0 n)).
  { unfold csv_headers, n. destruct (filteredLines content options) as [|l ls].
    - destruct i; discriminate Hline.
    - rewrite Hh; reflexivity. }
  split; [rewrite parseCSV_eq, length_map, Hdata; reflexivity|].
  eexists; split; [apply parseCSV_nth; rewrite Hdata; exact Hline|].
  rewrite Hheaders.
  pose proof (column_names_distinct n 0) as Hnd.
  assert (Hkeys : keys (fill_row (map column_name (seq 0 n)) 0
                          (parseLine line (opt_delimiter options)) [])
                  = map column_name (seq 0 n)).
  { rewrite fill_row_fresh by exact Hnd. simpl; apply keys_combine.
    rewrite !length_map, !length_seq; reflexivity. }
  rewrite Hkeys, length_map, length_seq.
  split; [reflexivity|]. split; [reflexivity|].
  intros j Hj. rewrite fill_row_get.
  rewrite (last_index_nodup _ j); [reflexivity | exact Hnd |].
  rewrite nth_error_map, nth_error_seq.
  destruct (Nat.ltb_spec j n); [reflexivity | lia].
Qed.

Lemma parseCSV_without_headers_witness :
  length (parseCSV (lit "1,Ann" ++ [LF] ++ lit "2")
                   (mkCSVOptions None (Some false) None None))
  = length (filteredLines (lit "1,Ann" ++ [LF] ++ lit "2")
                          (mkCSVOptions None (Some false) None None))
  /\ exists row,
       nth_error (parseCSV (lit "1,Ann" ++ [LF] ++ lit "2")
                           (mkCSVOptions None (Some false) None None)) 1
       = Some row
       /\ keys row = map column_name (seq 0 (length (keys row)))
       /\ length (keys row)
          = length (parseLine
                      (nth 0 (filteredLines (lit "1,Ann" ++ [LF] ++ lit "2")
                                (mkCSVOptions None (Some false) None None)) [])
                      (opt_delimiter (mkCSVOptions None (Some false) None None)))
       /\ forall j,
            j < length (keys row) ->
            row_get row (column_name j)
            = Some (nth j (parseLine (lit "2")
                             (opt_delimiter
                                (mkCSVOptions None (Some false) None None))) []).
Proof.
  apply (parseCSV_without_headers (lit "1,Ann" ++ [LF] ++ lit "2")
           (mkCSVOptions None (Some false) None None) 1 (lit "2"));
    reflexivity.
Defined.



(* ====================================================================== *)
(** * src/generators/password.ts *)
(* ====================================================================== *)

Lemma remove_excluded_In (excludeChars s : jstring) (c : ascii) :
  In c (remove_excluded excludeChars s) <-> In c s /\ ~ In c excludeChars.
Proof.
  unfold remove_excluded; rewrite filter_In, negb_true_iff, includes_char_false.
  reflexivity.
Qed.

Lemma required_loop_ok (excludeChars : jstring) (mustInclude : list jstring) :
  forall requiredChars w,
  exists req w',
    required_loop mustInclude excludeChars requiredChars w
    = (Ok (requiredChars ++ req), w')
    /\ Forall2 (fun type ch =>
                  one_char (fun c => In c (required_charset excludeChars type)) ch)
               (satisfiable_types excludeChars mustInclude) req.
Proof.
  induction mustInclude as [|type rest IH]; intros requiredChars w.
  - exists [], w; rewrite app_nil_r; split; [reflexivity | constructor].
  - cbn [required_loop satisfiable_types filter].
    fold (required_charset excludeChars type).
    fold (satisfiable_types excludeChars rest).
    destruct (0 <? length (required_charset excludeChars type)) eqn:E.
    + apply Nat.ltb_lt in E.
      destruct (randomInt_ok 0 (Z.of_nat (length (required_charset excludeChars type)) - 1)
                  w ltac:(lia)) as (i & Hi & Hr).
      unfold bind at 1; rewrite Hi.
      destruct (charAt_in_range (required_charset excludeChars type) i ltac:(lia))
        as (c & Hc & Hin).
      rewrite Hc.
      destruct (IH (requiredChars ++ [[c]]) (advance w)) as (req & w' & Hreq & Hall).
      exists ([c] :: req), w'. rewrite <- app_assoc in Hreq.
      split; [exact Hreq|]. constructor; [|exact Hall].
      exists c; split; [reflexivity | exact Hin].
    + apply IH.
Qed.

Lemma fill_loop_ok (pool : jstring) (n : nat) :
  pool <> [] ->
  forall chars w,
  exists extra w',
    fill_loop n pool chars w = (Ok (chars ++ extra), w')
    /\ length extra = n
    /\ Forall (one_char (fun c => In c pool)) extra.
Proof.
  intros Hne; induction n as [|n IH]; intros chars w; cbn [fill_loop].
  - exists [], w; rewrite app_nil_r; repeat split; constructor.
  - assert (Hlen : (0 <= Z.of_nat (length pool) - 1)%Z)
      by (destruct pool; [contradiction | simpl length; lia]).
    destruct (randomInt_ok 0 (Z.of_nat (length pool) - 1) w Hlen) as (i & Hi & Hr).
    unfold bind at 1; rewrite Hi.
    destruct (charAt_in_range pool i ltac:(lia)) as (c & Hc & Hin).
    rewrite Hc.
    destruct (IH (chars ++ [[c]]) (advance w)) as (extra & w' & He & Hl & Hall).
    exists ([c] :: extra), w'. rewrite <- app_assoc in He.
    split; [exact He|]. split; [simpl; lia|].
    constructor; [exists c; split; [reflexivity | exact Hin] | exact Hall].
Qed.

Lemma join_empty_concat (parts : list jstring) : join [] parts = concat parts.
Proof.
  induction parts as [|p [|q parts] IH]; [reflexivity | |].
  - simpl; rewrite app_nil_r; reflexivity.
  - change (join [] (p :: q :: parts)) with (p ++ join [] (q :: parts)).
    rewrite IH; reflexivity.
Qed.

Lemma concat_one_chars (P : ascii -> Prop) (l : list jstring) :
  Forall (one_char P) l ->
  length (concat l) = length l /\ Forall P (concat l).
Proof.
  induction 1 as [|ch l (c & -> & Hc) _ [IH1 IH2]]; [split; constructor|].
  simpl; split; [lia | constructor; assumption].
Qed.

Lemma required_chars_spec (ex : jstring) (types req : list jstring) :
  Forall2 (fun type ch => one_char (fun c => In c (required_charset ex type)) ch)
          types req ->
  Forall (one_char (fun c => ~ In c ex
                             /\ exists type, In type types
                                             /\ In c (charset_of_type type)))
         req
  /\ (forall type, In type types ->
                   exists c, In [c] req /\ In c (charset_of_type type)).
Proof.
  induction 1 as [|t ch types req (c & -> & Hc) _ [IH1 IH2]].
  - split; [constructor | intros type []].
  - apply remove_excluded_In in Hc as [Hc Hnot]. split.
    + constructor.
      * exists c; split; [reflexivity|]. split; [exact Hnot|].
        exists t; split; [left; reflexivity | exact Hc].
      * eapply Forall_impl; [|exact IH1].
        intros ch (c' & -> & Hn & t' & Ht' & Hc'). exists c'; split; [reflexivity|].
        split; [exact Hn | exists t'; split; [right; exact Ht' | exact Hc']].
    + intros type [<-|Htype].
      * exists c; split; [left; reflexivity | exact Hc].
      * destruct (IH2 type Htype) as (c' & H1 & H2).
        exists c'; split; [right; exact H1 | exact H2].
Qed.

Lemma generatePassword_unfold (options : PasswordOptions) :
  generatePassword options
  = if (password_length options <? 1)%Z
    then throw (Error (lit "Password length must be at least 1"))
    else if length (password_pool options) =? 0
    then throw (Error (lit "No characters available for password generation"))
    else
      requiredChars <- required_loop (password_must options)
                         (password_exclude options) [] ;;
      chars <- fill_loop
                 (Z.to_nat (password_length options
                            - Z.of_nat (length ([] ++ requiredChars))))
                 (password_pool options) ([] ++ requiredChars) ;;
      shuffled <- shuffle chars ;;
      ret (join [] shuffled).
Proof. reflexivity. Qed.

Lemma password_pool_allowed (options : PasswordOptions) (c : ascii) :
  In c (password_pool options) -> ~ In c (password_exclude options).
Proof.
  unfold password_pool; cbv zeta.
  destruct (password_exclude options) as [|e ex] eqn:E; [intros _ []|].
  intros H; apply remove_excluded_In in H; tauto.
Qed.

(** What [generatePassword] does once its two checks pass. *)
Lemma generatePassword_ok (options : PasswordOptions) (w : World) :
  (1 <= password_length options)%Z ->
  password_pool options <> [] ->
  exists s w',
    generatePassword options w = (Ok s, w')
    /\ Z.of_nat (length s)
       = Z.max (password_length options)
               (Z.of_nat (length (satisfiable_types (password_exclude options)
                                    (password_must options))))
    /\ (forall c,
          In c s ->
          ~ In c (password_exclude options)
          /\ (In c (password_pool options)
              \/ exists type, In type (password_must options)
                              /\ In c (charset_of_type type)))
    /\ (forall type,
          In type (password_must options) ->
          required_charset (password_exclude options) type <> [] ->
          exists c, In c s /\ In c (charset_of_type type)).
Proof.
  intros Hlen Hpool. rewrite generatePassword_unfold.
  destruct (Z.ltb_spec (password_length options) 1); [lia|].
  destruct (Nat.eqb_spec (length (password_pool options)) 0) as [E|_];
    [destruct (password_pool options); [contradiction | discriminate E]|].
  set (ex := password_exclude options) in *.
  set (must := password_must options) in *.
  destruct (required_loop_ok ex must [] w) as (req & w1 & Hreq & Hall).
  unfold bind at 1; rewrite Hreq. cbn [app].
  destruct (fill_loop_ok (password_pool options)
              (Z.to_nat (password_length options - Z.of_nat (length req)))
              Hpool req w1) as (extra & w2 & Hfill & Hel & Hextra).
  unfold bind at 1; rewrite Hfill.
  destruct (shuffle_is_permutation_aux (req ++ extra) w2) as (sh & w3 & Hsh & Hperm).
  unfold bind at 1; rewrite Hsh; unfold ret.
  exists (join [] sh), w3; split; [reflexivity|].
  rewrite join_empty_concat.
  set (P := fun c => ~ In c ex
                     /\ (In c (password_pool options)
                         \/ exists type, In type must /\ In c (charset_of_type type))).
  destruct (required_chars_spec ex _ req Hall) as [Hreq_all Hreq_each].
  assert (Hsub : forall t, In t (satisfiable_types ex must) -> In t must)
    by (intros t Ht; apply filter_In in Ht; tauto).
  assert (Hreq_types : Forall (one_char P) req).
  { eapply Forall_impl; [|exact Hreq_all].
    intros ch (c & -> & Hnot & t & Ht & Hc). exists c; split; [reflexivity|].
    split; [exact Hnot | right; exists t; split; [apply Hsub; exact Ht | exact Hc]]. }
  assert (Hextra_P : Forall (one_char P) extra).
  { eapply Forall_impl; [|exact Hextra].
    intros ch (c & -> & Hc). exists c; split; [reflexivity|].
    split; [apply password_pool_allowed; exact Hc | left; exact Hc]. }
  assert (Hsh_P : Forall (one_char P) sh).
  { eapply Permutation_Forall; [apply Permutation_sym; exact Hperm|].
    apply Forall_app; split; assumption. }
  destruct (concat_one_chars P sh Hsh_P) as [Hlen_sh HP].
  split; [|split].
  - rewrite Hlen_sh, (Permutation_length Hperm), length_app, Hel.
    rewrite <- (Forall2_length Hall). lia.
  - intros c Hc. apply (proj1 (Forall_forall _ _) HP c Hc).
  - intros type Htype Hne.
    assert (Hsat : In type (satisfiable_types ex must)).
    { apply filter_In; split; [exact Htype|]. apply Nat.ltb_lt.
      destruct (required_charset ex type); [contradiction | simpl; lia]. }
    assert (Hch : exists c, In [c] req /\ In c (charset_of_type type))
      by (apply Hreq_each; exact Hsat).
    destruct Hch as (c & Hin & Hc). exists c; split; [|exact Hc].
    apply in_concat. exists [c]; split; [|left; reflexivity].
    eapply Permutation_in; [apply Permutation_sym; exact Hperm|].
    apply in_or_app; left; exact Hin.
Qed.

(** With a length of at least 1 and a pool that is not empty,
    [generatePassword] returns a password whose length is the length asked
    for, or the number of required types that can be met when that is
    larger. No character of it is excluded; each comes from the pool or
    from the set of a required type; and every required type that still
    has a character after the exclusions is represented. A length below 1
    and an empty pool each throw. *)
Theorem generatePassword_contract (options : PasswordOptions) (w : World) :
  ((1 <= password_length options)%Z ->
   password_pool options <> [] ->
   exists s w',
     generatePassword options w = (Ok s, w')
     /\ Z.of_nat (length s)
        = Z.max (password_length options)
                (Z.of_nat (length (satisfiable_types (password_exclude options)
                                     (password_must options))))
     /\ (forall c,
           In c s ->
           ~ In c (password_exclude options)
           /\ (In c (password_pool options)
               \/ exists type, In type (password_must options)
                               /\ In c (charset_of_type type)))
     /\ (forall type,
           In type (password_must options) ->
           required_charset (password_exclude options) type <> [] ->
           exists c, In c s /\ In c (charset_of_type type)))
  /\ ((password_length options < 1)%Z ->
      generatePassword options w
      = (Throw (Error (lit "Password length must be at least 1")), w))
  /\ ((1 <= password_length options)%Z ->
      password_pool options = [] ->
      generatePassword options w
      = (Throw (Error (lit "No characters available for password generation")),
         w)).
Proof.
  split; [apply generatePassword_ok|]. rewrite generatePassword_unfold. split.
  - intros H; destruct (Z.ltb_spec (password_length options) 1); [reflexivity | lia].
  - intros H E; destruct (Z.ltb_spec (password_length options) 1); [lia|].
    rewrite E; reflexivity.
Qed.

(** [generateSecurePassword] returns a password with an uppercase letter,
    a lowercase letter, a digit and a symbol in it; its length is the
    length asked for, and 4 when fewer than 4 characters are asked for. *)
Theorem generateSecurePassword_has_every_class (length_ : Z) (w : World) :
  (1 <= length_)%Z ->
  exists s w',
    generateSecurePassword length_ w = (Ok s, w')
    /\ Z.of_nat (length s) = Z.max length_ 4
    /\ (exists c, In c s /\ In c PW_uppercase)
    /\ (exists c, In c s /\ In c PW_lowercase)
    /\ (exists c, In c s /\ In c PW_numbers)
    /\ (exists c, In c s /\ In c PW_symbols).
Proof.
  intros Hlen; unfold generateSecurePassword.
  set (options := mkPasswordOptions (Some length_) (Some true) (Some true)
                    (Some true) (Some true) None
                    (Some [lit "uppercase"; lit "lowercase"; lit "number";
                           lit "symbol"])).
  destruct (generatePassword_ok options w Hlen ltac:(discriminate))
    as (s & w' & Hs & Hl & _ & Hmust).
  exists s, w'; split; [exact Hs|]. split; [exact Hl|].
  repeat split.
  - apply (Hmust (lit "uppercase")); [simpl; tauto | discriminate].
  - apply (Hmust (lit "lowercase")); [simpl; tauto | discriminate].
  - apply (Hmust (lit "number")); [simpl; tauto | discriminate].
  - apply (Hmust (lit "symbol")); [simpl; tauto | discriminate].
Qed.

Lemma generateSecurePassword_has_every_class_witness :
  exists s w',
    generateSecurePassword 2 (mkWorld (fun n => 11 * n + 5) 0 2026) = (Ok s, w')
    /\ Z.of_nat (length s) = Z.max 2 4
    /\ (exists c, In c s /\ In c PW_uppercase)
    /\ (exists c, In c s /\ In c PW_lowercase)
    /\ (exists c, In c s /\ In c PW_numbers)
    /\ (exists c, In c s /\ In c PW_symbols).
Proof.
  apply (generateSecurePassword_has_every_class 2); lia.
Defined.

(** [generatePin] returns as many digits as asked for, and throws when
    fewer than one is asked for. *)
Theorem generatePin_digits (length_ : Z) (w : World) :
  ((1 <= length_)%Z ->
   exists s w',
     generatePin length_ w = (Ok s, w')
     /\ all_digits s /\ Z.of_nat (length s) = length_)
  /\ ((length_ < 1)%Z ->
      generatePin length_ w
      = (Throw (Error (lit "PIN length must be at least 1")), w)).
Proof.
  unfold generatePin; split; intros H.
  - destruct (Z.ltb_spec length_ 1); [lia|].
    destruct (append_random_digits_ok (Z.to_nat length_) [] w)
      as (s & w' & Hs & Hl & Hd & _).
    exists s, w'; split; [exact Hs|]; split; [exact Hd | lia].
  - destruct (Z.ltb_spec length_ 1); [reflexivity | lia].
Qed.

Lemma only_letters_no_digit (s : jstring) :
  only_letters s = true -> existsb is_digit s = false.
Proof.
  unfold only_letters; rewrite andb_true_iff; intros [_ H].
  induction s as [|c s IH]; [reflexivity|].
  cbn [forallb existsb] in *. apply andb_prop in H as [Hc Hs].
  rewrite (IH Hs), orb_false_r.
  unfold is_upper, is_lower, in_range, is_digit in *.
  destruct (Nat.leb_spec 48 (nat_of_ascii c)), (Nat.leb_spec (nat_of_ascii c) 57);
    try reflexivity.
  destruct (Nat.leb_spec 65 (nat_of_ascii c)), (Nat.leb_spec (nat_of_ascii c) 90),
           (Nat.leb_spec 97 (nat_of_ascii c)), (Nat.leb_spec (nat_of_ascii c) 122);
    try discriminate Hc; lia.
Qed.

(** [validatePasswordStrength] never reports the level very-strong: the
    score it returns is between 0 and 3, and the level is the one of that
    score. It gives no feedback exactly when the password has at least 8
    characters, an uppercase letter, a lowercase letter, a digit and a
    symbol, and no character three times in a row. *)
Theorem validatePasswordStrength_never_very_strong (password : jstring) :
  let r := validatePasswordStrength password in
  (0 <= score r <= 3)%Z
  /\ level r = nth (Z.to_nat (score r)) levels []
  /\ level r <> lit "very-strong"
  /\ (feedback r = [] <->
      (8 <=? length password) = true
      /\ existsb is_upper password = true
      /\ existsb is_lower password = true
      /\ existsb is_digit password = true
      /\ existsb is_symbol password = true
      /\ has_repeated_char password = false).
Proof.
  unfold validatePasswordStrength; cbv zeta.
  rewrite (Nat.ltb_antisym 8 (length password)).
  pose proof (only_letters_no_digit password) as Hletters.
  revert Hletters.
  generalize (only_letters password) (existsb is_digit password)
             (8 <=? length password) (12 <=? length password)
             (16 <=? length password) (existsb is_upper password)
             (existsb is_lower password) (existsb is_symbol password)
             (has_repeated_char password).
  intros ol hd b8 b12 b16 hu hl hs hr Hletters.
  destruct ol; [rewrite (Hletters eq_refl) | destruct hd]; clear Hletters;
    destruct b8, b12, b16, hu, hl, hs, hr;
    cbn [negb app score level feedback];
    (split; [vm_compute; split; discriminate|]);
    (split; [reflexivity|]);
    (split; [vm_compute; discriminate|]);
    (split; [intros H; try discriminate H; repeat split
            | intros (H1 & H2 & H3 & H4 & H5 & H6);
              try discriminate; reflexivity]).
Qed.

(* ====================================================================== *)
(** * What the Luhn check does not detect *)
(* ====================================================================== *)

Lemma luhn_pair_terms (position x y : nat) :
  x <= 9 -> y <= 9 ->
  let a := luhn_term position y + luhn_term (S position) x in
  let b := luhn_term position x + luhn_term (S position) y in
  a <= 18 /\ b <= 18
  /\ (x <> y -> ~ (x = 0 /\ y = 9) -> ~ (x = 9 /\ y = 0) ->
      a <> b /\ a <> b + 10 /\ b <> a + 10)
  /\ ((x = 0 /\ y = 9) \/ (x = 9 /\ y = 0) -> a = b).
Proof.
  intros Hx Hy; unfold luhn_term.
  rewrite Nat.odd_succ, <- Nat.negb_odd.
  destruct (Nat.odd position); cbn [negb];
    destruct (Nat.ltb_spec 9 (2 * x)), (Nat.ltb_spec 9 (2 * y));
    repeat split; intros; lia.
Qed.

Lemma luhnCheck_adjacent_pair (a b : jstring) (x y : nat) :
  all_digits a -> all_digits b -> x <= 9 -> y <= 9 ->
  exists s1 s2 p,
    luhnCheck (a ++ digit_char x :: digit_char y :: b)
    = ((s1 + (luhn_term p y + luhn_term (S p) x + s2)) mod 10 =? 0)
    /\ luhnCheck (a ++ digit_char y :: digit_char x :: b)
       = ((s1 + (luhn_term p x + luhn_term (S p) y + s2)) mod 10 =? 0).
Proof.
  intros Ha Hb Hx Hy.
  assert (Hall : forall u v, u <= 9 -> v <= 9 ->
                             all_digits (a ++ digit_char u :: digit_char v :: b)).
  { intros u v Hu Hv; apply Forall_app; split; [exact Ha|].
    constructor; [apply digit_char_is_digit; exact Hu|].
    constructor; [apply digit_char_is_digit; exact Hv | exact Hb]. }
  exists (luhn_sum_from 0 (rev b)),
         (luhn_sum_from (S (S (0 + length (rev b)))) (rev a)),
         (0 + length (rev b)).
  rewrite !luhnCheck_digits by (apply Hall; assumption).
  unfold luhn_sum. rewrite !rev_app_distr; simpl rev.
  rewrite <- !app_assoc; simpl app.
  rewrite !luhn_sum_from_app; cbn [luhn_sum_from].
  rewrite !digit_value_char by assumption.
  split; f_equal; f_equal; lia.
Qed.

(** Exchanging two neighbouring digits of a number that
    [isValidCardNumber] accepts makes it rejected, except for the pair 0
    and 9: a number and the one with 09 turned into 90, or 90 into 09,
    get the same answer. *)
Theorem isValidCardNumber_adjacent_swap (before after : jstring) (x y : nat) :
  x <= 9 -> y <= 9 ->
  (x <> y -> ~ (x = 0 /\ y = 9) -> ~ (x = 9 /\ y = 0) ->
   isValidCardNumber (before ++ digit_char x :: digit_char y :: after) = true ->
   isValidCardNumber (before ++ digit_char y :: digit_char x :: after) = false)
  /\ ((x = 0 /\ y = 9) \/ (x = 9 /\ y = 0) ->
      isValidCardNumber (before ++ digit_char y :: digit_char x :: after)
      = isValidCardNumber (before ++ digit_char x :: digit_char y :: after)).
Proof.
  intros Hx Hy.
  assert (Hstrip : forall u v, u <= 9 -> v <= 9 ->
            strip_non_digits (before ++ digit_char u :: digit_char v :: after)
            = strip_non_digits before
              ++ digit_char u :: digit_char v :: strip_non_digits after).
  { intros u v Hu Hv; unfold strip_non_digits. rewrite filter_app; cbn [filter].
    rewrite !digit_char_is_digit by assumption; reflexivity. }
  unfold isValidCardNumber. rewrite !Hstrip by assumption.
  rewrite !length_app; cbn [length].
  destruct (luhnCheck_adjacent_pair (strip_non_digits before)
              (strip_non_digits after) x y (strip_digits_all _)
              (strip_digits_all _) Hx Hy) as (s1 & s2 & p & -> & ->).
  destruct (luhn_pair_terms p x y Hx Hy) as (Ba & Bb & Hdiff & Hsame).
  cbv zeta in *.
  destruct ((length (strip_non_digits before)
             + S (S (length (strip_non_digits after))) <? 13)
            || (19 <? length (strip_non_digits before)
                      + S (S (length (strip_non_digits after))))).
  - split; [discriminate | reflexivity].
  - split.
    + intros Hne H09 H90 H. destruct (Hdiff Hne H09 H90) as (D1 & D2 & D3).
      apply Nat.eqb_eq in H. apply Nat.eqb_neq; intros H'.
      pose proof (Nat.div_mod_eq
                    (s1 + (luhn_term p y + luhn_term (S p) x + s2)) 10).
      pose proof (Nat.div_mod_eq
                    (s1 + (luhn_term p x + luhn_term (S p) y + s2)) 10).
      lia.
    + intros H; rewrite (Hsame H); reflexivity.
Qed.

Lemma isValidCardNumber_adjacent_swap_witness :
  (4 <> 1 -> ~ (4 = 0 /\ 1 = 9) -> ~ (4 = 9 /\ 1 = 0) ->
   isValidCardNumber ([] ++ digit_char 4 :: digit_char 1 :: lit "11111111111111")
   = true ->
   isValidCardNumber ([] ++ digit_char 1 :: digit_char 4 :: lit "11111111111111")
   = false)
  /\ ((4 = 0 /\ 1 = 9) \/ (4 = 9 /\ 1 = 0) ->
      isValidCardNumber ([] ++ digit_char 1 :: digit_char 4 :: lit "11111111111111")
      = isValidCardNumber
          ([] ++ digit_char 4 :: digit_char 1 :: lit "11111111111111")).
Proof.
  apply (isValidCardNumber_adjacent_swap [] (lit "11111111111111") 4 1); lia.
Defined.
